(** * SPHinXsys: particle data containers and the two-phase dambreak scheduler

    A shallow embedding of

    - [SPHINXsys/src/shared/common/sph_data_containers.h]: the generalized
      particle data ([ParticleData], [ParticleDataMap],
      [ParticleVariableList]), the cross-category dispatcher
      [ParticleDataOperation] and the operations [swapParticleDataValue],
      [loopParticleDataMap] and [loopVariableNameList];
    - [tests/2d_examples/test_2d_two_phase_dambreak/two_phase_dambreak.cpp]:
      the time-stepping control of [main] (the three nested [while] loops).

    The first half of the file holds the definitions, the second half the
    theorems about them. *)

From Stdlib Require Import QArith Qminmax Lqa PrimFloat Uint63.
From Stdlib Require FloatOps FloatAxioms SpecFloat.
From stdpp Require Import gmap strings list sorting.

(* ===================================================================== *)
(** * Part I: definitions                                                 *)
(* ===================================================================== *)

(** ** The value categories

    [ParticleData] is a [std::tuple] of four pointer vectors, one per value
    type: [Real] (position 0), [Vecd] (1), [Matd] (2) and [int] (3). *)

Inductive Category := Scalar | Vector | Tensor | Integer.

#[global] Instance Category_eq_dec : EqDecision Category.
Proof. solve_decision. Defined.

Definition all_categories : list Category := [Scalar; Vector; Tensor; Integer].

(** An address of a [StdLargeVec]: what a [StdLargeVec<T> *] holds. *)
Abbreviation addr := nat (only parsing).

Section ContainerModel.
(** [Real], [Vecd] and [Matd] are declared in [base_data_type.h], which is
    not part of the sources at hand; the containers never look inside a
    value, so the three types are parameters.  A C++ [int] is kept as an
    integer: the containers only move such values around. *)
Context {Real Vecd Matd : Type}.

(** The free store holding the arrays the pointers of a [ParticleData]
    refer to.  Pointers are typed, so there is one table per element type
    and a [StdLargeVec<Real> *] can never alias a [StdLargeVec<Vecd> *].
    An address outside a table is a null or dangling pointer. *)
Record Memory := {
  real_arrays : gmap addr (list Real);
  vecd_arrays : gmap addr (list Vecd);
  matd_arrays : gmap addr (list Matd);
  int_arrays : gmap addr (list Z) }.

(** [typedef std::tuple<StdVec<StdLargeVec<Real> *>, StdVec<StdLargeVec<Vecd> *>,
                       StdVec<StdLargeVec<Matd> *>, StdVec<StdLargeVec<int> *>>
      ParticleData;] *)
Record ParticleData := {
  real_variables : list addr;
  vecd_variables : list addr;
  matd_variables : list addr;
  int_variables : list addr }.

(** [typedef std::array<std::map<std::string, size_t>, 4> ParticleDataMap;] *)
Record ParticleDataMap := {
  real_map : gmap string nat;
  vecd_map : gmap string nat;
  matd_map : gmap string nat;
  int_map : gmap string nat }.

(** [typedef std::array<StdVec<std::pair<std::string, size_t>>, 4>
      ParticleVariableList;] *)
Record ParticleVariableList := {
  real_list : list (string * nat);
  vecd_list : list (string * nat);
  matd_list : list (string * nat);
  int_list : list (string * nat) }.

(** What an operation works on: the [ParticleData &] it is handed and the
    arrays behind its pointers. *)
Record Store := {
  particle_data : ParticleData;
  memory : Memory }.

(** A [VariableOperation]: a callable applied as
    [variable_operation(variable_name, variable)] to a
    [StdLargeVec<VariableType> &] of any of the four element types.  It may
    rewrite the array it is given and act on whatever it refers to outside
    the store (a stream, a log, a file), here a state of type [V]; [None]
    is a call that does not return normally. *)
Record VariableOperation (V : Type) := {
  on_real : string → list Real → V → option (list Real * V);
  on_vecd : string → list Vecd → V → option (list Vecd * V);
  on_matd : string → list Matd → V → option (list Matd * V);
  on_int : string → list Z → V → option (list Z * V) }.
Arguments on_real {_} _ _ _ _.
Arguments on_vecd {_} _ _ _ _.
Arguments on_matd {_} _ _ _ _.
Arguments on_int {_} _ _ _ _.

(** [ParticleDataTypeIndex<VariableType>] (declared in [base_data_type.h])
    gives the position [value] of [VariableType] in the tuple; with it come
    the selections the templates make through [type_index]:
    [std::get<type_index>(particle_data)], [particle_data_map[type_index]],
    [variable_name_list[type_index]], the arrays of that element type and
    the overload of a [VariableOperation] for it. *)
Record ParticleDataTypeIndex (VariableType : Type) := {
  value : nat;
  category : Category;
  get_variables : ParticleData → list addr;
  get_map : ParticleDataMap → gmap string nat;
  get_list : ParticleVariableList → list (string * nat);
  get_arrays : Memory → gmap addr (list VariableType);
  set_arrays : gmap addr (list VariableType) → Memory → Memory;
  call : ∀ V, VariableOperation V →
         string → list VariableType → V → option (list VariableType * V) }.
Arguments value {_} _.
Arguments category {_} _.
Arguments get_variables {_} _ _.
Arguments get_map {_} _ _.
Arguments get_list {_} _ _.
Arguments get_arrays {_} _ _.
Arguments set_arrays {_} _ _ _.
Arguments call {_} _ {_} _ _ _ _.

Definition real_index : ParticleDataTypeIndex Real := {|
  value := 0; category := Scalar;
  get_variables := real_variables; get_map := real_map; get_list := real_list;
  get_arrays := real_arrays;
  set_arrays := λ a m, {| real_arrays := a; vecd_arrays := vecd_arrays m;
                          matd_arrays := matd_arrays m; int_arrays := int_arrays m |};
  call := @on_real |}.

Definition vecd_index : ParticleDataTypeIndex Vecd := {|
  value := 1; category := Vector;
  get_variables := vecd_variables; get_map := vecd_map; get_list := vecd_list;
  get_arrays := vecd_arrays;
  set_arrays := λ a m, {| real_arrays := real_arrays m; vecd_arrays := a;
                          matd_arrays := matd_arrays m; int_arrays := int_arrays m |};
  call := @on_vecd |}.

Definition matd_index : ParticleDataTypeIndex Matd := {|
  value := 2; category := Tensor;
  get_variables := matd_variables; get_map := matd_map; get_list := matd_list;
  get_arrays := matd_arrays;
  set_arrays := λ a m, {| real_arrays := real_arrays m; vecd_arrays := vecd_arrays m;
                          matd_arrays := a; int_arrays := int_arrays m |};
  call := @on_matd |}.

Definition int_index : ParticleDataTypeIndex Z := {|
  value := 3; category := Integer;
  get_variables := int_variables; get_map := int_map; get_list := int_list;
  get_arrays := int_arrays;
  set_arrays := λ a m, {| real_arrays := real_arrays m; vecd_arrays := vecd_arrays m;
                          matd_arrays := matd_arrays m; int_arrays := a |};
  call := @on_int |}.

(** Writing the array at address [p] back into the store. *)
Definition store_array {T} (ti : ParticleDataTypeIndex T)
    (p : addr) (variable : list T) (st : Store) : Store :=
  {| particle_data := particle_data st;
     memory := set_arrays ti (<[p := variable]> (get_arrays ti (memory st)))
                         (memory st) |}.

(** ** The dispatcher

    [[
    template <template <typename VariableType> typename OperationType>
    struct ParticleDataOperation
    {
        OperationType<Real> scalar_operation;
        OperationType<Vecd> vector_operation;
        OperationType<Matd> matrix_operation;
        OperationType<int> integer_operation;

        template <typename... ParticleArgs>
        void operator()(ParticleData &particle_data, ParticleArgs... particle_args)
        {
            scalar_operation(particle_data, particle_args...);
            vector_operation(particle_data, particle_args...);
            matrix_operation(particle_data, particle_args...);
            integer_operation(particle_data, particle_args...);
        }
    };
    ]]

    An operation instance is a partial transformer of the state [W] it acts
    on (the store, together with whatever its arguments refer to); the
    arguments [Args] are the [particle_args]. *)
Record ParticleDataOperation (Args W : Type) := {
  scalar_operation : Args → W → option W;
  vector_operation : Args → W → option W;
  matrix_operation : Args → W → option W;
  integer_operation : Args → W → option W }.
Arguments scalar_operation {_ _} _ _ _.
Arguments vector_operation {_ _} _ _ _.
Arguments matrix_operation {_ _} _ _ _.
Arguments integer_operation {_ _} _ _ _.

(** [operator()] of the dispatcher. *)
Definition apply_operation {Args W} (op : ParticleDataOperation Args W)
    (particle_args : Args) (w : W) : option W :=
  w1 ← scalar_operation op particle_args w;
  w2 ← vector_operation op particle_args w1;
  w3 ← matrix_operation op particle_args w2;
  integer_operation op particle_args w3.

(** The instance of the dispatcher for an operation template
    [OperationType]: one member per element type. *)
Definition instantiate {Args W}
    (OperationType : ∀ T, ParticleDataTypeIndex T → Args → W → option W)
    : ParticleDataOperation Args W := {|
  scalar_operation := OperationType Real real_index;
  vector_operation := OperationType Vecd vecd_index;
  matrix_operation := OperationType Matd matd_index;
  integer_operation := OperationType Z int_index |}.

(** ** [swapParticleDataValue]

    [std::swap(variable[index_a], variable[index_b])] on one array.  The
    subscripts of a [std::vector] are unchecked: an index past the end is
    undefined behaviour, here [None]. *)
Definition swap_elements {T} (index_a index_b : nat) (variable : list T)
    : option (list T) :=
  x ← variable !! index_a;
  y ← variable !! index_b;
  Some (<[index_b := x]> (<[index_a := y]> variable)).

(** [[
    for (size_t i = 0; i != variables.size(); ++i)
    {
        StdLargeVec<VariableType> &variable = *variables[i];
        std::swap(variable[index_a], variable[index_b]);
    }
    ]]
    The loop runs over the copy [variables] of the pointer vector; the
    arrays are reached through the pointers, so the swaps land in the
    store. *)
Fixpoint swap_loop {T} (variables : list addr) (index_a index_b : nat)
    (arrays : gmap addr (list T)) : option (gmap addr (list T)) :=
  match variables with
  | [] => Some arrays
  | p :: variables' =>
      variable ← arrays !! p;
      variable' ← swap_elements index_a index_b variable;
      swap_loop variables' index_a index_b (<[p := variable']> arrays)
  end.

Definition swapParticleDataValue T (ti : ParticleDataTypeIndex T)
    (indexes : nat * nat) (st : Store) : option Store :=
  let variables := get_variables ti (particle_data st) in
  arrays ← swap_loop variables indexes.1 indexes.2 (get_arrays ti (memory st));
  Some {| particle_data := particle_data st;
          memory := set_arrays ti arrays (memory st) |}.

(** [ParticleDataOperation<swapParticleDataValue>], applied as
    [swap_particle_data_value(particle_data, index_a, index_b)]. *)
Definition swap_particle_data_value : ParticleDataOperation (nat * nat) Store :=
  instantiate swapParticleDataValue.

(** ** [loopParticleDataMap] and [loopVariableNameList] *)

(** A range-[for] over a [std::map<std::string, size_t>] goes through the
    entries in increasing order of the keys; [std::string] compares
    lexicographically by character code. *)
Definition name_le (x y : string * nat) : Prop := String.leb x.1 y.1 = true.

#[global] Instance name_le_dec x y : Decision (name_le x y).
Proof. unfold name_le. apply _. Defined.

Definition map_entries (m : gmap string nat) : list (string * nat) :=
  merge_sort name_le (map_to_list m).

(** The body shared by the two loops:
    [[
    std::string variable_name = name_index.first;
    StdLargeVec<VariableType> &variable =
        *(std::get<type_index>(particle_data)[name_index.second]);
    variable_operation(variable_name, variable);
    ]]
    The subscript of the pointer vector is unchecked too, and the pointer
    is dereferenced as it is. *)
Definition visit_variable {T V} (ti : ParticleDataTypeIndex T)
    (variable_operation : VariableOperation V)
    (name_index : string * nat) (w : Store * V) : option (Store * V) :=
  let variable_name := name_index.1 in
  p ← get_variables ti (particle_data w.1) !! name_index.2;
  variable ← get_arrays ti (memory w.1) !! p;
  r ← call ti variable_operation variable_name variable w.2;
  Some (store_array ti p r.1 w.1, r.2).

Fixpoint visit_all {T V} (ti : ParticleDataTypeIndex T)
    (variable_operation : VariableOperation V)
    (entries : list (string * nat)) (w : Store * V) : option (Store * V) :=
  match entries with
  | [] => Some w
  | name_index :: entries' =>
      w' ← visit_variable ti variable_operation name_index w;
      visit_all ti variable_operation entries' w'
  end.

(** [for (auto const &name_index : particle_data_map[type_index])] *)
Definition loopParticleDataMap {V} T (ti : ParticleDataTypeIndex T)
    (args : ParticleDataMap * VariableOperation V) (w : Store * V)
    : option (Store * V) :=
  visit_all ti args.2 (map_entries (get_map ti args.1)) w.

(** [for (std::pair<std::string, size_t> &name_index : variable_name_list[type_index])] *)
Definition loopVariableNameList {V} T (ti : ParticleDataTypeIndex T)
    (args : ParticleVariableList * VariableOperation V) (w : Store * V)
    : option (Store * V) :=
  visit_all ti args.2 (get_list ti args.1) w.

(** [ParticleDataOperation<loopParticleDataMap>], applied as
    [loop_particle_data_map(particle_data, particle_data_map, variable_operation)]. *)
Definition loop_particle_data_map {V}
    : ParticleDataOperation (ParticleDataMap * VariableOperation V) (Store * V) :=
  instantiate loopParticleDataMap.

Definition loop_variable_name_list {V}
    : ParticleDataOperation (ParticleVariableList * VariableOperation V) (Store * V) :=
  instantiate loopVariableNameList.
(** What [std::swap(variable[a], variable[b])] leaves behind: [v'] is [v]
    with the elements at [a] and [b] exchanged. *)
Definition swapped {T} (a b : nat) (v v' : list T) : Prop :=
  length v' = length v ∧
  v' !! a = v !! b ∧ v' !! b = v !! a ∧
  ∀ i, i ≠ a → i ≠ b → v' !! i = v !! i.

(** ** Vocabulary of the statements about the containers *)

(** The four instances of [ParticleDataTypeIndex] the dispatcher uses. *)
Inductive type_index : ∀ T, ParticleDataTypeIndex T → Prop :=
  | type_index_real : type_index Real real_index
  | type_index_vecd : type_index Vecd vecd_index
  | type_index_matd : type_index Matd matd_index
  | type_index_int : type_index Z int_index.

(** Element [k] of the [i]-th registered variable of a category: the array
    the pointer [std::get<type_index>(particle_data)[i]] refers to, at [k]. *)
Definition element {T} (ti : ParticleDataTypeIndex T) (st : Store)
    (i k : nat) : option T :=
  p ← get_variables ti (particle_data st) !! i;
  variable ← get_arrays ti (memory st) !! p;
  variable !! k.

(** A particle data store of [N] particles, for one category: every
    registered variable has an array of its own (no two pointers of the
    vector are the same) and every array has [N] elements. *)
Definition variables_ok {T} (N : nat) (variables : list addr)
    (arrays : gmap addr (list T)) : Prop :=
  NoDup variables ∧
  Forall (λ p, length <$> arrays !! p = Some N) variables.

#[global] Instance variables_ok_dec {T} N variables (arrays : gmap addr (list T)) :
  Decision (variables_ok N variables arrays).
Proof. unfold variables_ok. apply _. Defined.

Definition store_ok (N : nat) (st : Store) : Prop :=
  variables_ok N (real_variables (particle_data st)) (real_arrays (memory st)) ∧
  variables_ok N (vecd_variables (particle_data st)) (vecd_arrays (memory st)) ∧
  variables_ok N (matd_variables (particle_data st)) (matd_arrays (memory st)) ∧
  variables_ok N (int_variables (particle_data st)) (int_arrays (memory st)).

#[global] Instance store_ok_dec N st : Decision (store_ok N st).
Proof. unfold store_ok. apply _. Defined.

(** The lengths of all the arrays of the free store, registered or not. *)
Definition array_lengths (m : Memory)
    : gmap addr nat * gmap addr nat * gmap addr nat * gmap addr nat :=
  (length <$> real_arrays m, length <$> vecd_arrays m,
   length <$> matd_arrays m, length <$> int_arrays m).

(** An operation instance that also notes, in a log kept beside the state,
    the category it ran for once it has run. *)
Definition traced {Args W} (c : Category) (f : Args → W → option W)
    : Args → W * list Category → option (W * list Category) :=
  λ args wl, w' ← f args wl.1; Some (w', wl.2 ++ [c]).

Definition traced_template {Args W}
    (OperationType : ∀ T, ParticleDataTypeIndex T → Args → W → option W)
    : ∀ T, ParticleDataTypeIndex T → Args → W * list Category
           → option (W * list Category) :=
  λ T ti, traced (category ti) (OperationType T ti).

(** A [VariableOperation] that does what [variable_operation] does and also
    notes each variable it is applied to, by category and name. *)
Definition recorded {V} (variable_operation : VariableOperation V)
    : VariableOperation (V * list (Category * string)) := {|
  on_real name variable vl :=
    r ← on_real variable_operation name variable vl.1;
    Some (r.1, (r.2, vl.2 ++ [(Scalar, name)]));
  on_vecd name variable vl :=
    r ← on_vecd variable_operation name variable vl.1;
    Some (r.1, (r.2, vl.2 ++ [(Vector, name)]));
  on_matd name variable vl :=
    r ← on_matd variable_operation name variable vl.1;
    Some (r.1, (r.2, vl.2 ++ [(Tensor, name)]));
  on_int name variable vl :=
    r ← on_int variable_operation name variable vl.1;
    Some (r.1, (r.2, vl.2 ++ [(Integer, name)])) |}.

(** The data map of a category: [particle_data_map[c]]. *)
Definition category_map (c : Category) (m : ParticleDataMap) : gmap string nat :=
  match c with
  | Scalar => real_map m
  | Vector => vecd_map m
  | Tensor => matd_map m
  | Integer => int_map m
  end.

(** Iterating the data maps of the four categories by hand, one after the
    other: the variables met, by category and name. *)
Definition manual_iteration (m : ParticleDataMap) : list (Category * string) :=
  c ← all_categories; (λ name_index, (c, name_index.1)) <$> map_entries (category_map c m).

(** A [VariableOperation] that returns normally on every call. *)
Definition returns_normally {V} (variable_operation : VariableOperation V) : Prop :=
  (∀ name variable v, is_Some (on_real variable_operation name variable v)) ∧
  (∀ name variable v, is_Some (on_vecd variable_operation name variable v)) ∧
  (∀ name variable v, is_Some (on_matd variable_operation name variable v)) ∧
  (∀ name variable v, is_Some (on_int variable_operation name variable v)).

(** The addresses at which the free store holds an array. *)
Definition allocated (m : Memory) : gset addr * gset addr * gset addr * gset addr :=
  (dom (real_arrays m), dom (vecd_arrays m), dom (matd_arrays m), dom (int_arrays m)).

(** A data map that belongs to the store: every index it holds is a
    position of the category's pointer vector, and the pointer there refers
    to an array. *)
Definition map_in_store {T} (ti : ParticleDataTypeIndex T)
    (m : ParticleDataMap) (st : Store) : Prop :=
  map_Forall
    (λ _ i, is_Some (p ← get_variables ti (particle_data st) !! i;
                     get_arrays ti (memory st) !! p))
    (get_map ti m).

Definition maps_in_store (m : ParticleDataMap) (st : Store) : Prop :=
  map_in_store real_index m st ∧ map_in_store vecd_index m st ∧
  map_in_store matd_index m st ∧ map_in_store int_index m st.

#[global] Instance maps_in_store_dec m st : Decision (maps_in_store m st).
Proof. unfold maps_in_store, map_in_store. apply _. Defined.
End ContainerModel.

Arguments value {_ _ _ _} _.
Arguments category {_ _ _ _} _.
Arguments get_variables {_ _ _ _} _ _.
Arguments get_map {_ _ _ _} _ _.
Arguments get_list {_ _ _ _} _ _.
Arguments get_arrays {_ _ _ _} _ _.
Arguments set_arrays {_ _ _ _} _ _ _.
Arguments call {_ _ _ _} _ {_} _ _ _ _.
Arguments scalar_operation {_ _} _ _ _.
Arguments vector_operation {_ _} _ _ _.
Arguments matrix_operation {_ _} _ _ _.
Arguments integer_operation {_ _} _ _ _.
Arguments on_real {_ _ _ _} _ _ _ _.
Arguments on_vecd {_ _ _ _} _ _ _ _.
Arguments on_matd {_ _ _ _} _ _ _ _.
Arguments on_int {_ _ _ _} _ _ _ _.

(** ** The time-stepping control of [two_phase_dambreak.cpp]

    [Real] is the floating type of [base_data_type.h]; the scheduler only
    adds such values, compares them and writes three literals.  Those
    operations are the interface [RealArith]; the control flow is embedded
    once, for every implementation of it. *)
Class RealArith (Real : Type) := {
  real_lit : Q → Real;             (* a literal: [0.0], [0.1], [20.0] *)
  real_add : Real → Real → Real;   (* [x + y], as used by [x += y] *)
  real_ltb : Real → Real → bool;   (* [x < y] *)
  real_leb : Real → Real → bool }. (* [x <= y] *)

(** A value is a number when it compares with itself: [x <= x].  In
    binary64 that is every value but a NaN, infinities included. *)
Definition is_number {Real : Type} `{RealArith Real} (x : Real) : Prop :=
  real_leb x x = true.

(** What the two comparisons have in common in every arithmetic the code
    may run in, binary64 included: [<] holds between numbers only, two
    numbers are comparable, and between numbers [x < y] is the failure of
    [y <= x].  Nothing is said of a NaN, and nothing of [+]. *)
Class RealCompare (Real : Type) `{RealArith Real} : Prop := {
  real_ltb_numbers : ∀ x y : Real,
    real_ltb x y = true → is_number x ∧ is_number y;
  real_leb_comparable : ∀ x y : Real,
    is_number x → is_number y → real_leb x y = true ∨ real_leb y x = true;
  real_ltb_not_leb : ∀ x y : Real,
    is_number x → is_number y → real_ltb x y = negb (real_leb y x) }.

(** The laws of a total order with an addition that loses nothing: every
    value is a number, and adding a value that is not negative does not go
    down.  The exact rationals satisfy them.  Binary64 does not: a NaN
    compares with nothing, and [-inf + inf] is a NaN.  Only the two
    statements on estimates that are not positive, or not negative, are made
    under these laws; every other statement on the scheduler is made for
    every arithmetic, or under [RealCompare]. *)
Class RealOrder (Real : Type) `{RealArith Real} : Prop := {
  real_leb_total : ∀ x y : Real, real_leb x y = true ∨ real_leb y x = true;
  real_leb_trans : ∀ x y z : Real,
    real_leb x y = true → real_leb y z = true → real_leb x z = true;
  real_ltb_leb : ∀ x y : Real, real_ltb x y = negb (real_leb y x);
  real_add_nonneg : ∀ x d : Real,
    real_leb (real_lit 0) d = true → real_leb x (real_add x d) = true }.

(** The two fluid bodies whose time steps the loop combines. *)
Inductive Phase := Water | Air.

(** The body relations whose configurations the loop refreshes. *)
Inductive BodyRelation :=
  | water_air_complex | water_wall_contact
  | air_water_complex | air_wall_contact
  | fluid_observer_contact.

(** The calls that rebuild the spatial structures (lines 194-202):
    [<body>.updateCellLinkedListWithParticleSort(100)] and
    [<relation>.updateConfiguration()]. *)
Inductive Refresh :=
  | UpdateCellLinkedListWithParticleSort (body : Phase) (particle_sort_period : nat)
  | UpdateConfiguration (relation : BodyRelation).

#[global] Instance Phase_eq_dec : EqDecision Phase.
Proof. solve_decision. Defined.
#[global] Instance BodyRelation_eq_dec : EqDecision BodyRelation.
Proof. solve_decision. Defined.
#[global] Instance Refresh_eq_dec : EqDecision Refresh.
Proof. solve_decision. Defined.

Section SchedulerModel.
Context {Real : Type} `{RealArith Real}.

(** Modelled from the spec: [SMIN] is defined outside the sources at hand;
    the spec reads [SMIN(a, b)] as the minimum of its two arguments. *)
Definition SMIN (a b : Real) : Real := if real_leb a b then a else b.

(** The calls the loop makes to its collaborators, in the order of
    execution, with the values handed over or returned.  The wall-clock
    bookkeeping ([tick_count]) is left out. *)
Inductive Event :=
  | InitializeStep (body : Phase)                 (* initialize_a_<body>_step.parallel_exec() *)
  | AdvectionTimeStepSize (body : Phase) (result : Real)
  | DensityBySummation (body : Phase)             (* update_<body>_density_by_summation *)
  | TransportCorrection (Dt : Real)               (* air_transport_correction.parallel_exec(Dt) *)
  | AcousticTimeStepSize (body : Phase) (result : Real)
  | PressureRelaxation (body : Phase) (dt : Real) (* <body>_pressure_relaxation.parallel_exec(dt) *)
  | DensityRelaxation (body : Phase) (dt : Real)  (* <body>_density_relaxation.parallel_exec(dt) *)
  | ScreenOutput (N : Z) (Time Dt dt : Real)      (* the line written to std::cout *)
  | WriteMechanicalEnergy (N : Z)                 (* write_water_mechanical_energy.writeToFile(N) *)
  | WriteRecordedPressure (N : Z)                 (* write_recorded_pressure.writeToFile(N) *)
  | WriteRestart (N : Z)                          (* restart_io.writeToFile(N) *)
  | Refreshing (call : Refresh)
  | WriteBodyStates                               (* body_states_recording.writeToFile() *)
  | NewResultTest (pressure : bool).              (* the two newResultTest() calls *)

(** The step-size estimators are collaborators of the loop: the [k]-th call
    of [get_<body>_advection_time_step_size.parallel_exec()] returns
    [advection_time_step_size body k], the [k]-th call of
    [get_<body>_time_step_size.parallel_exec()] returns
    [acoustic_time_step_size body k]. *)
Record Estimators := {
  advection_time_step_size : Phase → nat → Real;
  acoustic_time_step_size : Phase → nat → Real }.

(** Where control stands: at the test of one of the three [while] loops, or
    past the main loop. *)
Inductive Location := AtMainLoop | AtInnerLoop | AtAcousticLoop | AfterMainLoop.

Record State := {
  location : Location;
  physical_time : Real;        (* GlobalStaticVariables::physical_time_ *)
  integration_time : Real;
  Dt : Real;
  relaxation_time : Real;
  dt : Real;
  number_of_iterations : Z;    (* a size_t *)
  advection_calls : nat;       (* calls made so far to each advection estimator *)
  acoustic_calls : nat;        (* calls made so far to each acoustic estimator *)
  trace : list Event }.

Definition end_time : Real := real_lit 20.
Definition output_interval : Real := real_lit (1 # 10).
Definition screen_output_interval : Z := 100.
Definition observation_sample_interval : Z := screen_output_interval * 2.
Definition restart_output_interval : Z := screen_output_interval * 10.

(** [number_of_iterations++] on a 64-bit [size_t]. *)
Definition size_t_succ (n : Z) : Z := ((n + 1) mod 2 ^ 64)%Z.

(** Lines 115-121: [physical_time_ = 0.0], [restart_step_ = 0],
    [dt = 0.0]; control is about to test the main loop. *)
Definition initial_state : State := {|
  location := AtMainLoop;
  physical_time := real_lit 0;
  integration_time := real_lit 0;
  Dt := real_lit 0;
  relaxation_time := real_lit 0;
  dt := real_lit 0;
  number_of_iterations := 0;
  advection_calls := 0;
  acoustic_calls := 0;
  trace := [] |}.

(** Lines 175-188: the output made every [screen_output_interval] outer
    steps. *)
Definition output_events (s : State) : list Event :=
  let n := number_of_iterations s in
  if (n mod screen_output_interval =? 0)%Z then
    [ScreenOutput n (physical_time s) (Dt s) (dt s)]
    ++ (if negb (n =? 0)%Z && (n mod observation_sample_interval =? 0)%Z
        then [WriteMechanicalEnergy n; WriteRecordedPressure n] else [])
    ++ (if (n mod restart_output_interval =? 0)%Z then [WriteRestart n] else [])
  else [].

(** Lines 194-202. *)
Definition refresh_sequence : list Refresh :=
  [ UpdateCellLinkedListWithParticleSort Water 100;
    UpdateConfiguration water_air_complex;
    UpdateConfiguration water_wall_contact;
    UpdateCellLinkedListWithParticleSort Air 100;
    UpdateConfiguration air_water_complex;
    UpdateConfiguration air_wall_contact;
    UpdateConfiguration fluid_observer_contact ].

(** Lines 138-156: the start of an outer step, up to the test of the
    acoustic loop. *)
Definition begin_outer_step (est : Estimators) (s : State) : State :=
  let Dt_f := advection_time_step_size est Water (advection_calls s) in
  let Dt_a := advection_time_step_size est Air (advection_calls s) in
  let Dt' := SMIN Dt_f Dt_a in
  {| location := AtAcousticLoop;
     physical_time := physical_time s;
     integration_time := integration_time s;
     Dt := Dt';
     relaxation_time := real_lit 0;
     dt := dt s;
     number_of_iterations := number_of_iterations s;
     advection_calls := S (advection_calls s);
     acoustic_calls := acoustic_calls s;
     trace := trace s ++
       [ InitializeStep Water; InitializeStep Air;
         AdvectionTimeStepSize Water Dt_f; AdvectionTimeStepSize Air Dt_a;
         DensityBySummation Water; DensityBySummation Air;
         TransportCorrection Dt' ] |}.

(** Lines 159-171: one pass through the body of the acoustic loop. *)
Definition acoustic_step (est : Estimators) (s : State) : State :=
  let dt_f := acoustic_time_step_size est Water (acoustic_calls s) in
  let dt_a := acoustic_time_step_size est Air (acoustic_calls s) in
  let dt' := SMIN (SMIN dt_f dt_a) (Dt s) in
  {| location := AtAcousticLoop;
     physical_time := real_add (physical_time s) dt';
     integration_time := real_add (integration_time s) dt';
     Dt := Dt s;
     relaxation_time := real_add (relaxation_time s) dt';
     dt := dt';
     number_of_iterations := number_of_iterations s;
     advection_calls := advection_calls s;
     acoustic_calls := S (acoustic_calls s);
     trace := trace s ++
       [ AcousticTimeStepSize Water dt_f; AcousticTimeStepSize Air dt_a;
         PressureRelaxation Water dt'; PressureRelaxation Air dt';
         DensityRelaxation Water dt'; DensityRelaxation Air dt' ] |}.

(** Lines 173-203: the end of an outer step, after the acoustic loop. *)
Definition end_outer_step (s : State) : State :=
  {| location := AtInnerLoop;
     physical_time := physical_time s;
     integration_time := integration_time s;
     Dt := Dt s;
     relaxation_time := relaxation_time s;
     dt := dt s;
     number_of_iterations := size_t_succ (number_of_iterations s);
     advection_calls := advection_calls s;
     acoustic_calls := acoustic_calls s;
     trace := trace s ++ output_events s ++ map Refreshing refresh_sequence |}.

(** Moving control, and nothing else. *)
Definition goto (l : Location) (events : list Event) (s : State) : State :=
  {| location := l;
     physical_time := physical_time s;
     integration_time := integration_time s;
     Dt := Dt s;
     relaxation_time := relaxation_time s;
     dt := dt s;
     number_of_iterations := number_of_iterations s;
     advection_calls := advection_calls s;
     acoustic_calls := acoustic_calls s;
     trace := trace s ++ events |}.

(** Line 134: [Real integration_time = 0.0;] on entering the main loop's
    body. *)
Definition enter_main_body (s : State) : State :=
  {| location := AtInnerLoop;
     physical_time := physical_time s;
     integration_time := real_lit 0;
     Dt := Dt s;
     relaxation_time := relaxation_time s;
     dt := dt s;
     number_of_iterations := number_of_iterations s;
     advection_calls := advection_calls s;
     acoustic_calls := acoustic_calls s;
     trace := trace s |}.

(** One transition of the control: the test of the loop control stands at,
    followed by the code up to the next loop test.
    [[
    while (GlobalStaticVariables::physical_time_ < end_time)
    {
        Real integration_time = 0.0;
        while (integration_time < output_interval)
        {
            ...                                    // begin_outer_step
            Real relaxation_time = 0.0;
            while (relaxation_time < Dt)
            {
                ...                                // acoustic_step
            }
            ...                                    // end_outer_step
        }
        body_states_recording.writeToFile();
    }
    write_water_mechanical_energy.newResultTest();
    write_recorded_pressure.newResultTest();
    ]] *)
Definition step (est : Estimators) (s : State) : State :=
  match location s with
  | AtMainLoop =>
      if real_ltb (physical_time s) end_time then enter_main_body s
      else goto AfterMainLoop [NewResultTest false; NewResultTest true] s
  | AtInnerLoop =>
      if real_ltb (integration_time s) output_interval then begin_outer_step est s
      else goto AtMainLoop [WriteBodyStates] s
  | AtAcousticLoop =>
      if real_ltb (relaxation_time s) (Dt s) then acoustic_step est s
      else end_outer_step s
  | AfterMainLoop => s
  end.

(** [n] transitions. *)
Fixpoint run (est : Estimators) (n : nat) (s : State) : State :=
  match n with
  | O => s
  | S n' => step est (run est n' s)
  end.

(** The inner steps applied so far, as handed to the first relaxation pass
    of each acoustic iteration. *)
Definition applied_dt (e : Event) : option Real :=
  match e with
  | PressureRelaxation Water dt => Some dt
  | _ => None
  end.

Definition applied_dts (tr : list Event) : list Real := omap applied_dt tr.


(** The refresh calls of a trace. *)
Definition refresh_call (e : Event) : option Refresh :=
  match e with
  | Refreshing r => Some r
  | _ => None
  end.

Definition refreshes (tr : list Event) : list Refresh := omap refresh_call tr.

(** Outer steps begun: each begins with one [TransportCorrection]. *)
Definition begins_outer_step (e : Event) : bool :=
  match e with
  | TransportCorrection _ => true
  | _ => false
  end.

Definition outer_steps_begun (tr : list Event) : nat :=
  length (filter (λ e, begins_outer_step e = true) tr).

(** Outer steps completed: those begun, less the one in progress while
    control is in the acoustic loop. *)
Definition outer_steps_completed (s : State) : nat :=
  outer_steps_begun (trace s)
  - (match location s with AtAcousticLoop => 1 | _ => 0 end).
End SchedulerModel.

Arguments Event : clear implicits.
Arguments Estimators : clear implicits.
Arguments State : clear implicits.

(** ** Instances used to exercise the definitions *)

(** Exact arithmetic on the rationals, every value kept in lowest terms.
    It is an idealisation of the code's [Real]: sums are not rounded and
    there is no NaN, so a run in it shows what the control does with values
    that binary64 represents and adds exactly enough, and nothing of what
    rounding does. *)
#[global] Instance Q_arith : RealArith Q := {|
  real_lit := Qred;
  real_add := λ x y, Qred (x + y);
  real_ltb := λ x y, negb (Qle_bool y x);
  real_leb := Qle_bool |}.

(** IEEE binary64 arithmetic, the [double] behind [Real] and so the
    arithmetic the code runs in: a literal is the double nearest to the
    decimal written (the correctly rounded quotient of two small integers),
    [+] rounds to nearest, and the comparisons are false on a NaN. *)
Definition binary64_of_Z (z : Z) : float :=
  match z with
  | Z0 => PrimFloat.zero
  | Zpos _ => PrimFloat.of_uint63 (Uint63.of_Z z)
  | Zneg p => PrimFloat.opp (PrimFloat.of_uint63 (Uint63.of_Z (Zpos p)))
  end.

#[global] Instance binary64_arith : RealArith float := {|
  real_lit := λ q, PrimFloat.div (binary64_of_Z (Qnum q)) (binary64_of_Z (Zpos (Qden q)));
  real_add := PrimFloat.add;
  real_ltb := PrimFloat.ltb;
  real_leb := PrimFloat.leb |}.

(** Estimators that return the same four values at every call. *)
Definition constant_estimates {Real} `{RealArith Real}
    (Dt_f Dt_a dt_f dt_a : Q) : Estimators Real := {|
  advection_time_step_size body _ :=
    match body with Water => real_lit Dt_f | Air => real_lit Dt_a end;
  acoustic_time_step_size body _ :=
    match body with Water => real_lit dt_f | Air => real_lit dt_a end |}.

(** The scenario of the spec: advection estimates 0.02 and 0.03, acoustic
    estimates 0.005 and 0.007. *)
Definition scenario_estimates : Estimators Q :=
  constant_estimates 0.02 0.03 0.005 0.007.

(** Acoustic estimates that do not divide the outer step. *)
Definition uneven_estimates : Estimators Q :=
  constant_estimates 0.02 0.03 0.006 0.007.

(** A water estimator that returns a negative acoustic step. *)
Definition negative_estimates : Estimators Q :=
  constant_estimates 0.02 0.03 (-0.001) 0.007.

(** A water estimator that returns a zero acoustic step. *)
Definition zero_estimates : Estimators Q :=
  constant_estimates 0.02 0.03 0 0.007.

(** The uneven and the negative estimates again, in binary64. *)
Definition uneven_estimates_binary64 : Estimators float :=
  constant_estimates 0.02 0.03 0.006 0.007.

Definition negative_estimates_binary64 : Estimators float :=
  constant_estimates 0.02 0.03 (-0.001) 0.007.

(** The scenario of the spec in binary64. *)
Definition scenario_estimates_binary64 : Estimators float :=
  constant_estimates 0.02 0.03 0.005 0.007.

(** An air advection estimator that returns a NaN. *)
Definition nan_estimates_binary64 : Estimators float := {|
  advection_time_step_size body _ :=
    match body with Water => real_lit 0.02 | Air => PrimFloat.nan end;
  acoustic_time_step_size body _ :=
    match body with Water => real_lit 0.005 | Air => real_lit 0.007 end |}.

(** A store of three particles in two dimensions: two scalar variables,
    one vector, one tensor and one integer variable. *)
Definition example_memory : @Memory Q (Q * Q) ((Q * Q) * (Q * Q)) := {|
  real_arrays := {[ 10 := [1%Q; 2%Q; 3%Q]; 11 := [10%Q; 20%Q; 30%Q] ]};
  vecd_arrays := {[ 20 := [(0%Q, 1%Q); (2%Q, 3%Q); (4%Q, 5%Q)] ]};
  matd_arrays := {[ 30 := [((1%Q, 0%Q), (0%Q, 1%Q)); ((2%Q, 0%Q), (0%Q, 2%Q));
                           ((3%Q, 0%Q), (0%Q, 3%Q))] ]};
  int_arrays := {[ 40 := [7%Z; 8%Z; 9%Z] ]} |}.

Definition example_store : @Store Q (Q * Q) ((Q * Q) * (Q * Q)) := {|
  particle_data := {| real_variables := [10; 11]; vecd_variables := [20];
                      matd_variables := [30]; int_variables := [40] |};
  memory := example_memory |}.

Definition example_map : ParticleDataMap := {|
  real_map := {[ "Pressure" := 0; "Density" := 1 ]};
  vecd_map := {[ "Velocity" := 0 ]};
  matd_map := {[ "DeformationGradient" := 0 ]};
  int_map := {[ "SortedID" := 0 ]} |}.

(** The same store with the first scalar array registered twice. *)
Definition aliased_store : @Store Q (Q * Q) ((Q * Q) * (Q * Q)) := {|
  particle_data := {| real_variables := [10; 10]; vecd_variables := [20];
                      matd_variables := [30]; int_variables := [40] |};
  memory := example_memory |}.

(** A variable operation that only looks. *)
Definition idle_operation : @VariableOperation Q (Q * Q) ((Q * Q) * (Q * Q)) unit := {|
  on_real _ variable v := Some (variable, v);
  on_vecd _ variable v := Some (variable, v);
  on_matd _ variable v := Some (variable, v);
  on_int _ variable v := Some (variable, v) |}.

(** ** Vocabulary of the further statements *)

Section FurtherVocabulary.
Context {Real Vecd Matd : Type}.

(** No variable is registered in any category. *)
Definition no_variables (pd : ParticleData) : Prop :=
  real_variables pd = [] ∧ vecd_variables pd = [] ∧
  matd_variables pd = [] ∧ int_variables pd = [].

(** A [VariableOperation] that leaves the array it is given as it found
    it. *)
Definition only_looks {V} (vo : @VariableOperation Real Vecd Matd V) : Prop :=
  (∀ name variable v r, on_real vo name variable v = Some r → r.1 = variable) ∧
  (∀ name variable v r, on_vecd vo name variable v = Some r → r.1 = variable) ∧
  (∀ name variable v r, on_matd vo name variable v = Some r → r.1 = variable) ∧
  (∀ name variable v r, on_int vo name variable v = Some r → r.1 = variable).

(** The name list of a category: [variable_name_list[c]]. *)
Definition category_list (c : Category) (l : ParticleVariableList)
    : list (string * nat) :=
  match c with
  | Scalar => real_list l
  | Vector => vecd_list l
  | Tensor => matd_list l
  | Integer => int_list l
  end.

(** The names of the four lists as written, one category after the
    other. *)
Definition listed_names (l : ParticleVariableList) : list (Category * string) :=
  c ← all_categories; (λ name_index, (c, name_index.1)) <$> category_list c l.

(** A name list that belongs to the store: every index it holds is a
    position of the category's pointer vector, and the pointer there refers
    to an array. *)
Definition list_in_store {T} (ti : @ParticleDataTypeIndex Real Vecd Matd T)
    (l : ParticleVariableList) (st : @Store Real Vecd Matd) : Prop :=
  Forall
    (λ e : string * nat,
       is_Some (p ← get_variables ti (particle_data st) !! e.2;
                get_arrays ti (memory st) !! p))
    (get_list ti l).

Definition lists_in_store (l : ParticleVariableList)
    (st : @Store Real Vecd Matd) : Prop :=
  list_in_store real_index l st ∧ list_in_store vecd_index l st ∧
  list_in_store matd_index l st ∧ list_in_store int_index l st.

#[global] Instance lists_in_store_dec l st : Decision (lists_in_store l st).
Proof. unfold lists_in_store, list_in_store. apply _. Defined.

(** The place of a category in the tuple, and the order in which two
    visits can follow each other: an earlier category first, and within a
    category the smaller name first. *)
Definition category_rank (c : Category) : nat :=
  match c with Scalar => 0 | Vector => 1 | Tensor => 2 | Integer => 3 end.

Definition visit_lt (x y : Category * string) : Prop :=
  category_rank x.1 < category_rank y.1 ∨
  (x.1 = y.1 ∧ String.ltb x.2 y.2 = true).

(** Distinct names of a data map stand for distinct positions. *)
Definition map_injective (m : gmap string nat) : Prop :=
  ∀ name1 name2 i, m !! name1 = Some i → m !! name2 = Some i → name1 = name2.

(** The pointer vectors of the store hold no pointer twice. *)
Definition no_aliasing (pd : ParticleData) : Prop :=
  NoDup (real_variables pd) ∧ NoDup (vecd_variables pd) ∧
  NoDup (matd_variables pd) ∧ NoDup (int_variables pd).

#[global] Instance no_aliasing_dec pd : Decision (no_aliasing pd).
Proof. unfold no_aliasing. apply _. Defined.

Definition maps_injective (m : ParticleDataMap) : Prop :=
  map_injective (real_map m) ∧ map_injective (vecd_map m) ∧
  map_injective (matd_map m) ∧ map_injective (int_map m).
End FurtherVocabulary.

Section FurtherSchedulerVocabulary.
Context {Real : Type}.

(** The two passes of an acoustic iteration. *)
Inductive RelaxationKind := Pressure | Density.

(** The estimator calls and the relaxation passes of a trace. *)
Definition advection_query (e : Event Real) : option (Phase * Real) :=
  match e with
  | AdvectionTimeStepSize body result => Some (body, result)
  | _ => None
  end.

Definition acoustic_query (e : Event Real) : option (Phase * Real) :=
  match e with
  | AcousticTimeStepSize body result => Some (body, result)
  | _ => None
  end.

Definition relaxation_pass (e : Event Real)
    : option (RelaxationKind * Phase * Real) :=
  match e with
  | PressureRelaxation body dt => Some (Pressure, body, dt)
  | DensityRelaxation body dt => Some (Density, body, dt)
  | _ => None
  end.

(** The iteration numbers at which the three kinds of output may be
    written (lines 175-187). *)
Definition output_due (e : Event Real) : Prop :=
  match e with
  | ScreenOutput N _ _ _ => (N mod 100 = 0)%Z
  | WriteMechanicalEnergy N | WriteRecordedPressure N =>
      (N ≠ 0 ∧ N mod 200 = 0)%Z
  | WriteRestart N => (N mod 1000 = 0)%Z
  | _ => True
  end.

(** The calls made after the main loop. *)
Definition is_result_test (e : Event Real) : bool :=
  match e with
  | NewResultTest _ => true
  | _ => false
  end.

(** The four relaxation passes of one acoustic iteration with step [d],
    in the order of lines 163-167. *)
Definition passes_of (d : Real) : list (RelaxationKind * Phase * Real) :=
  [ (Pressure, Water, d); (Pressure, Air, d);
    (Density, Water, d); (Density, Air, d) ].


End FurtherSchedulerVocabulary.

Section AcousticLoopVocabulary.
Context {Real : Type} `{RealArith Real}.

(** The inner step of the acoustic iteration that makes the [k]-th pair of
    estimator calls, in an outer step [D] (line 161). *)
Definition inner_step (est : Estimators Real) (D : Real) (k : nat) : Real :=
  SMIN (SMIN (acoustic_time_step_size est Water k)
             (acoustic_time_step_size est Air k)) D.

(** A clock [x] after [j] acoustic iterations, the first of which makes the
    [c]-th pair of estimator calls: [x += dt], [j] times over, each sum
    taken in the arithmetic at hand and in the order of execution (lines
    169-171). *)
Definition advanced (est : Estimators Real) (D : Real) (c : nat) (x : Real)
    (j : nat) : Real :=
  fold_left real_add (inner_step est D <$> seq c j) x.
End AcousticLoopVocabulary.

(** Estimators whose first step already passes the end time. *)
Definition coarse_estimates_binary64 : Estimators float :=
  constant_estimates 25 25 25 25.

(** An outer step of 0.8 and acoustic steps of 0.1, in exact arithmetic and
    in binary64. *)
Definition tenth_estimates : Estimators Q :=
  constant_estimates 0.8 0.8 0.1 0.1.

Definition tenth_estimates_binary64 : Estimators float :=
  constant_estimates 0.8 0.8 0.1 0.1.

(** Positive estimates in binary64: an outer step of 1, a first acoustic
    step of 0.05 and then acoustic steps of [2^-60], which is less than half
    the distance from 0.05 to the next double. *)
Definition tiny_estimates_binary64 : Estimators float := {|
  advection_time_step_size _ _ := real_lit 1;
  acoustic_time_step_size _ k :=
    match k with
    | O => real_lit 0.05
    | S _ => real_lit (1 # 1152921504606846976)
    end |}.

(** Infinite estimates in binary64: an outer step of [+inf], a first
    acoustic step of [-inf] and then acoustic steps of [+inf]. *)
Definition infinite_estimates_binary64 : Estimators float := {|
  advection_time_step_size _ _ := PrimFloat.infinity;
  acoustic_time_step_size _ k :=
    match k with
    | O => PrimFloat.neg_infinity
    | S _ => PrimFloat.infinity
    end |}.

(** A name list that names the first scalar variable twice and leaves the
    second out. *)
Definition example_list : ParticleVariableList := {|
  real_list := [("Pressure", 0); ("Pressure", 0)];
  vecd_list := [("Velocity", 0)];
  matd_list := [];
  int_list := [("SortedID", 0)] |}.

(** A variable operation that reverses scalar arrays and negates integer
    arrays, and looks at the others. *)
Definition rewriting_operation
    : @VariableOperation Q (Q * Q) ((Q * Q) * (Q * Q)) unit := {|
  on_real _ variable v := Some (reverse variable, v);
  on_vecd _ variable v := Some (variable, v);
  on_matd _ variable v := Some (variable, v);
  on_int _ variable v := Some (Z.opp <$> variable, v) |}.

(** A store with no variable at all, and one whose second scalar pointer
    refers to no array. *)
Definition empty_store : @Store Q (Q * Q) ((Q * Q) * (Q * Q)) := {|
  particle_data := {| real_variables := []; vecd_variables := [];
                      matd_variables := []; int_variables := [] |};
  memory := example_memory |}.

Definition dangling_store : @Store Q (Q * Q) ((Q * Q) * (Q * Q)) := {|
  particle_data := {| real_variables := [10; 12]; vecd_variables := [20];
                      matd_variables := [30]; int_variables := [40] |};
  memory := example_memory |}.

(** A store of four particles with one scalar and one integer variable. *)
Definition four_particle_store : @Store Q (Q * Q) ((Q * Q) * (Q * Q)) := {|
  particle_data := {| real_variables := [10]; vecd_variables := [];
                      matd_variables := []; int_variables := [40] |};
  memory := {| real_arrays := {[ 10 := [1%Q; 2%Q; 3%Q; 4%Q] ]};
               vecd_arrays := ∅; matd_arrays := ∅;
               int_arrays := {[ 40 := [5%Z; 6%Z; 7%Z; 8%Z] ]} |} |}.

(** A data map with an index past the pointer vector. *)
Definition stray_map : ParticleDataMap := {|
  real_map := {[ "Pressure" := 0; "Density" := 7 ]};
  vecd_map := {[ "Velocity" := 0 ]};
  matd_map := ∅;
  int_map := ∅ |}.

(* ===================================================================== *)
(** * Part II: theorems                                                   *)
(* ===================================================================== *)

(** ** Swapping inside one array *)

Lemma swap_elements_swapped {T} (a b : nat) (v : list T) :
  a < length v → b < length v →
  ∃ v', swap_elements a b v = Some v' ∧ swapped a b v v'.
Proof.
  intros Ha Hb. unfold swap_elements.
  destruct (lookup_lt_is_Some_2 v a Ha) as [x Hx].
  destruct (lookup_lt_is_Some_2 v b Hb) as [y Hy].
  rewrite Hx, Hy. simpl. eexists. split; [reflexivity|].
  unfold swapped. rewrite !length_insert. split; [done|].
  split; [|split].
  - destruct (decide (a = b)) as [->|Hab].
    + rewrite list_lookup_insert_eq by (by rewrite length_insert). congruence.
    + rewrite list_lookup_insert_ne by done.
      rewrite list_lookup_insert_eq by done. done.
  - rewrite list_lookup_insert_eq by (by rewrite length_insert). done.
  - intros i Hia Hib. by rewrite !list_lookup_insert_ne.
Qed.

Lemma swap_elements_None {T} (a b : nat) (v : list T) :
  length v ≤ a ∨ length v ≤ b → swap_elements a b v = None.
Proof.
  intros [Hl|Hl]; unfold swap_elements.
  - by rewrite (lookup_ge_None_2 v a Hl).
  - rewrite (lookup_ge_None_2 v b Hl). by destruct (v !! a).
Qed.

Lemma swapped_twice {T} (a b : nat) (v v' v'' : list T) :
  swapped a b v v' → swapped a b v' v'' → v'' = v.
Proof.
  intros (Hl1 & Ha1 & Hb1 & Ho1) (Hl2 & Ha2 & Hb2 & Ho2).
  apply list_eq. intros i.
  destruct (decide (i = a)) as [->|Hia]; [congruence|].
  destruct (decide (i = b)) as [->|Hib]; [congruence|].
  rewrite Ho2, Ho1; done.
Qed.

(** ** The loop of [swapParticleDataValue] over one category *)

Lemma swap_loop_spec {T} (N a b : nat) (variables : list addr) :
  a < N → b < N →
  ∀ arrays : gmap addr (list T),
  variables_ok N variables arrays →
  ∃ arrays',
    swap_loop variables a b arrays = Some arrays' ∧
    (∀ p, p ∈ variables →
          ∃ v v', arrays !! p = Some v ∧ arrays' !! p = Some v' ∧ swapped a b v v') ∧
    (∀ p, p ∉ variables → arrays' !! p = arrays !! p).
Proof.
  intros Ha Hb. induction variables as [|p variables IH]; intros arrays [Hnd Hall].
  - exists arrays. split; [done|]. split; [|done].
    intros p Hp. by apply elem_of_nil in Hp.
  - apply NoDup_cons in Hnd as [Hp Hnd].
    apply Forall_cons in Hall as [Hlen Hall].
    destruct (arrays !! p) as [v|] eqn:Hv; [|done].
    injection Hlen as Hlen.
    destruct (swap_elements_swapped a b v) as (v' & Hsw & Hswapped); [lia..|].
    destruct (IH (<[p := v']> arrays)) as (arrays' & Hrun & Hin & Hout).
    { split; [done|]. apply Forall_forall. intros q Hq.
      rewrite Forall_forall in Hall.
      rewrite lookup_insert_ne by (intros ->; done). by apply Hall. }
    exists arrays'. split; [|split].
    + simpl. rewrite Hv. simpl. rewrite Hsw. simpl. done.
    + intros q Hq. apply elem_of_cons in Hq as [->|Hq].
      * exists v, v'. rewrite Hout by done. by rewrite lookup_insert_eq.
      * destruct (Hin q Hq) as (w & w' & Hw & Hw' & Hs).
        exists w, w'. rewrite lookup_insert_ne in Hw by (intros ->; done). done.
    + intros q Hq. apply not_elem_of_cons in Hq as [Hqp Hq].
      rewrite Hout by done. by rewrite lookup_insert_ne.
Qed.

Lemma swap_loop_ok {T} (N a b : nat) (variables : list addr)
    (arrays arrays' : gmap addr (list T)) :
  variables_ok N variables arrays →
  (∀ p, p ∈ variables →
        ∃ v v', arrays !! p = Some v ∧ arrays' !! p = Some v' ∧ swapped a b v v') →
  variables_ok N variables arrays'.
Proof.
  intros [Hnd Hall] Hin. split; [done|].
  rewrite Forall_forall in *. intros p Hp.
  destruct (Hin p Hp) as (v & v' & Hv & Hv' & Hl & _).
  specialize (Hall p Hp). rewrite Hv in Hall. rewrite Hv'. simpl in *. congruence.
Qed.

Lemma swap_loop_twice {T} (N a b : nat) (variables : list addr)
    (arrays : gmap addr (list T)) :
  a < N → b < N → variables_ok N variables arrays →
  swap_loop variables a b arrays ≫= swap_loop variables a b = Some arrays.
Proof.
  intros Ha Hb Hok.
  destruct (swap_loop_spec N a b variables Ha Hb arrays Hok)
    as (arrays' & Hrun & Hin & Hout).
  pose proof (swap_loop_ok N a b variables arrays arrays' Hok Hin) as Hok'.
  destruct (swap_loop_spec N a b variables Ha Hb arrays' Hok')
    as (arrays'' & Hrun' & Hin' & Hout').
  rewrite Hrun. simpl. rewrite Hrun'. f_equal.
  apply map_eq. intros p.
  destruct (decide (p ∈ variables)) as [Hp|Hp].
  - destruct (Hin p Hp) as (v & v' & Hv & Hv' & Hs).
    destruct (Hin' p Hp) as (w & w' & Hw & Hw' & Hs').
    rewrite Hv' in Hw. injection Hw as <-.
    rewrite Hw', Hv. f_equal. by eapply swapped_twice.
  - by rewrite Hout', Hout.
Qed.

Lemma swap_loop_lengths {T} (N a b : nat) (variables : list addr)
    (arrays arrays' : gmap addr (list T)) :
  (∀ p, p ∈ variables →
        ∃ v v', arrays !! p = Some v ∧ arrays' !! p = Some v' ∧ swapped a b v v') →
  (∀ p, p ∉ variables → arrays' !! p = arrays !! p) →
  length <$> arrays' = length <$> arrays.
Proof.
  intros Hin Hout. apply map_eq. intros p. rewrite !lookup_fmap.
  destruct (decide (p ∈ variables)) as [Hp|Hp].
  - destruct (Hin p Hp) as (v & v' & Hv & Hv' & Hl & _).
    rewrite Hv, Hv'. simpl. by rewrite Hl.
  - by rewrite Hout.
Qed.

(** ** The dispatcher applied to [swapParticleDataValue] *)

Section SwapProofs.
Context {Real Vecd Matd : Type}.
Local Abbreviation Store := (@Store Real Vecd Matd).
Local Abbreviation Memory := (@Memory Real Vecd Matd).
Implicit Types (st : Store) (a b N : nat).

(** The four instances run one after the other, each on its own table. *)
Lemma apply_swap_unfold st a b :
  apply_operation swap_particle_data_value (a, b) st =
  (r ← swap_loop (real_variables (particle_data st)) a b (real_arrays (memory st));
   v ← swap_loop (vecd_variables (particle_data st)) a b (vecd_arrays (memory st));
   m ← swap_loop (matd_variables (particle_data st)) a b (matd_arrays (memory st));
   i ← swap_loop (int_variables (particle_data st)) a b (int_arrays (memory st));
   Some {| particle_data := particle_data st;
           memory := {| real_arrays := r; vecd_arrays := v;
                        matd_arrays := m; int_arrays := i |} |}).
Proof.
  unfold apply_operation, swap_particle_data_value, instantiate,
    swapParticleDataValue. simpl.
  destruct (swap_loop (real_variables _) a b _); simpl; [|done].
  destruct (swap_loop (vecd_variables _) a b _); simpl; [|done].
  destruct (swap_loop (matd_variables _) a b _); simpl; [|done].
  destruct (swap_loop (int_variables _) a b _); simpl; done.
Qed.

(** What one application of the swap does to a well-formed store. *)
Lemma swap_spec N st a b :
  store_ok N st → a < N → b < N →
  ∃ st',
    apply_operation swap_particle_data_value (a, b) st = Some st' ∧
    particle_data st' = particle_data st ∧
    store_ok N st' ∧
    array_lengths (memory st') = array_lengths (memory st) ∧
    ∀ T (ti : ParticleDataTypeIndex T), type_index T ti →
      (∀ p, p ∈ get_variables ti (particle_data st) →
         ∃ v v', get_arrays ti (memory st) !! p = Some v ∧
                 get_arrays ti (memory st') !! p = Some v' ∧ swapped a b v v') ∧
      (∀ p, p ∉ get_variables ti (particle_data st) →
         get_arrays ti (memory st') !! p = get_arrays ti (memory st) !! p).
Proof.
  intros (Hr & Hv & Hm & Hi) Ha Hb. rewrite apply_swap_unfold.
  destruct (swap_loop_spec N a b _ Ha Hb _ Hr) as (r' & Er & Hr1 & Hr2).
  destruct (swap_loop_spec N a b _ Ha Hb _ Hv) as (v' & Ev & Hv1 & Hv2).
  destruct (swap_loop_spec N a b _ Ha Hb _ Hm) as (m' & Em & Hm1 & Hm2).
  destruct (swap_loop_spec N a b _ Ha Hb _ Hi) as (i' & Ei & Hi1 & Hi2).
  rewrite Er, Ev, Em, Ei. simpl. eexists. split; [reflexivity|].
  split; [done|]. split; [|split].
  - unfold store_ok; simpl.
    repeat split; eapply (swap_loop_ok N a b); eassumption.
  - unfold array_lengths; simpl.
    by rewrite (swap_loop_lengths N a b _ _ _ Hr1 Hr2),
      (swap_loop_lengths N a b _ _ _ Hv1 Hv2),
      (swap_loop_lengths N a b _ _ _ Hm1 Hm2),
      (swap_loop_lengths N a b _ _ _ Hi1 Hi2).
  - intros T ti Hti. destruct Hti; simpl; done.
Qed.

(** Reading an element through the pointer vector, before and after. *)
Lemma element_lookup {T} (ti : ParticleDataTypeIndex T) st i k p v :
  get_variables ti (particle_data st) !! i = Some p →
  get_arrays ti (memory st) !! p = Some v →
  element ti st i k = v !! k.
Proof. intros Hp Hv. unfold element. rewrite Hp. simpl. by rewrite Hv. Qed.

Lemma store_ok_type_index N st T (ti : ParticleDataTypeIndex T) :
  store_ok N st → type_index T ti →
  variables_ok N (get_variables ti (particle_data st)) (get_arrays ti (memory st)).
Proof. intros (Hr & Hv & Hm & Hi) Hti. destruct Hti; done. Qed.

(** C5.  On a particle data store of [N] particles (every registered
    variable with an array of its own, every array of length [N]) and for
    indices [a], [b] below [N], the swap applied through the dispatcher
    succeeds, and in every registered variable of each of the four
    categories the element that was at [a] is afterwards at [b] and the one
    that was at [b] is at [a]. *)
Theorem swap_exchanges N st a b :
  store_ok N st → a < N → b < N →
  ∃ st',
    apply_operation swap_particle_data_value (a, b) st = Some st' ∧
    ∀ T (ti : ParticleDataTypeIndex T), type_index T ti →
    ∀ i, i < length (get_variables ti (particle_data st)) →
      is_Some (element ti st i a) ∧ is_Some (element ti st i b) ∧
      element ti st' i b = element ti st i a ∧
      element ti st' i a = element ti st i b.
Proof.
  intros Hok Ha Hb.
  destruct (swap_spec N st a b Hok Ha Hb) as (st' & Hrun & Hpd & _ & _ & Hsw).
  exists st'. split; [done|]. intros T ti Hti i Hi.
  destruct (Hsw T ti Hti) as [Hin _].
  destruct (lookup_lt_is_Some_2 _ i Hi) as [p Hp].
  destruct (Hin p) as (v & v' & Hv & Hv' & Hl & Hva & Hvb & _).
  { eapply list_elem_of_lookup_2, Hp. }
  pose proof (store_ok_type_index N st T ti Hok Hti) as [_ Hall].
  rewrite Forall_forall in Hall.
  assert (length v = N) as Hlen.
  { specialize (Hall p (list_elem_of_lookup_2 _ _ _ Hp)).
    rewrite Hv in Hall. by injection Hall. }
  rewrite (element_lookup ti st i a p v), (element_lookup ti st i b p v) by done.
  rewrite (element_lookup ti st' i a p v'), (element_lookup ti st' i b p v')
    by (by rewrite ?Hpd).
  repeat split; try done; apply lookup_lt_is_Some_2; lia.
Qed.

(** C6.  On such a store and for such indices, swapping [a] and [b] twice
    in succession gives back the store as it was: every element of every
    array is where it started. *)
Theorem swap_involutive N st a b :
  store_ok N st → a < N → b < N →
  apply_operation swap_particle_data_value (a, b) st
    ≫= apply_operation swap_particle_data_value (a, b) = Some st.
Proof.
  intros (Hr & Hv & Hm & Hi) Ha Hb.
  pose proof (swap_loop_twice N a b _ _ Ha Hb Hr) as Tr.
  pose proof (swap_loop_twice N a b _ _ Ha Hb Hv) as Tv.
  pose proof (swap_loop_twice N a b _ _ Ha Hb Hm) as Tm.
  pose proof (swap_loop_twice N a b _ _ Ha Hb Hi) as Ti.
  rewrite apply_swap_unfold.
  destruct (swap_loop (real_variables _) a b _) as [r'|]; [|done].
  destruct (swap_loop (vecd_variables _) a b _) as [v'|]; [|done].
  destruct (swap_loop (matd_variables _) a b _) as [m'|]; [|done].
  destruct (swap_loop (int_variables _) a b _) as [i'|]; [|done].
  simpl in *. rewrite apply_swap_unfold. simpl.
  rewrite Tr, Tv, Tm, Ti. simpl.
  destruct st as [pd [? ? ? ?]]. done.
Qed.

(** C10.  On such a store and for such indices, the swap leaves the
    element at every index other than [a] and [b] of every registered
    variable where it was; the pointer vectors of the four categories (which
    variables are registered, and how many per category) are the same
    afterwards, and so is the length of every array. *)
Theorem swap_frame N st a b :
  store_ok N st → a < N → b < N →
  ∃ st',
    apply_operation swap_particle_data_value (a, b) st = Some st' ∧
    particle_data st' = particle_data st ∧
    array_lengths (memory st') = array_lengths (memory st) ∧
    ∀ T (ti : ParticleDataTypeIndex T), type_index T ti →
    ∀ i k, k ≠ a → k ≠ b → element ti st' i k = element ti st i k.
Proof.
  intros Hok Ha Hb.
  destruct (swap_spec N st a b Hok Ha Hb) as (st' & Hrun & Hpd & _ & Hlen & Hsw).
  exists st'. repeat split; try done. intros T ti Hti i k Hka Hkb.
  destruct (Hsw T ti Hti) as [Hin _].
  unfold element. rewrite Hpd.
  destruct (get_variables ti (particle_data st) !! i) as [p|] eqn:Hp; [|done].
  simpl. destruct (Hin p) as (v & v' & Hv & Hv' & _ & _ & _ & Ho).
  { eapply list_elem_of_lookup_2, Hp. }
  rewrite Hv, Hv'. simpl. by apply Ho.
Qed.
End SwapProofs.

(** ** The dispatcher itself *)

Section DispatcherProofs.
Context {Real Vecd Matd : Type}.
Local Abbreviation Store := (@Store Real Vecd Matd).
Local Abbreviation ParticleDataTypeIndex := (@ParticleDataTypeIndex Real Vecd Matd).
Local Abbreviation VariableOperation := (@VariableOperation Real Vecd Matd).

Lemma traced_run {Args W} (c : Category) (f : Args → W → option W) args w log :
  traced c f args (w, log) = (λ w', (w', log ++ [c])) <$> f args w.
Proof. unfold traced. simpl. by destruct (f args w). Qed.

(** C7.  Whatever operation template the dispatcher is instantiated with,
    applying it runs the instance for [Real] first, then the one for [Vecd]
    on the state the first left, then the one for [Matd], then the one for
    [int]; when each instance notes its category as it runs, the notes read
    Scalar, Vector, Tensor, Integer. *)
Theorem dispatcher_order {Args W}
    (OperationType : ∀ T, ParticleDataTypeIndex T → Args → W → option W)
    (particle_args : Args) (w : W) (log : list Category) :
  apply_operation (instantiate (traced_template OperationType)) particle_args (w, log)
  = (λ w', (w', log ++ [Scalar; Vector; Tensor; Integer]))
      <$> apply_operation (instantiate OperationType) particle_args w
  ∧ ∀ w', apply_operation (instantiate OperationType) particle_args w = Some w' ↔
      ∃ w1 w2 w3,
        OperationType Real real_index particle_args w = Some w1 ∧
        OperationType Vecd vecd_index particle_args w1 = Some w2 ∧
        OperationType Matd matd_index particle_args w2 = Some w3 ∧
        OperationType Z int_index particle_args w3 = Some w'.
Proof.
  unfold apply_operation, instantiate, traced_template. simpl. split.
  - rewrite traced_run.
    destruct (OperationType Real real_index particle_args w) as [w1|]; [|done].
    simpl. rewrite traced_run.
    destruct (OperationType Vecd vecd_index particle_args w1) as [w2|]; [|done].
    simpl. rewrite traced_run.
    destruct (OperationType Matd matd_index particle_args w2) as [w3|]; [|done].
    simpl. rewrite traced_run.
    destruct (OperationType Z int_index particle_args w3) as [w4|]; [|done].
    simpl. by rewrite <- !app_assoc.
  - intros w'. split.
    + intros Hrun.
      destruct (OperationType Real real_index particle_args w) as [w1|]; [|done].
      simpl in Hrun.
      destruct (OperationType Vecd vecd_index particle_args w1) as [w2|] eqn:E2; [|done].
      simpl in Hrun.
      destruct (OperationType Matd matd_index particle_args w2) as [w3|] eqn:E3; [|done].
      simpl in Hrun. eauto 10.
    + intros (w1 & w2 & w3 & -> & E2 & E3 & E4). simpl.
      rewrite E2. simpl. rewrite E3. done.
Qed.

(** ** Going through the data maps *)

Lemma visit_variable_recorded {T V} (ti : ParticleDataTypeIndex T)
    (vo : VariableOperation V) name_index st v log :
  type_index T ti →
  visit_variable ti (recorded vo) name_index (st, (v, log))
  = (λ w, (w.1, (w.2, log ++ [(category ti, name_index.1)])))
      <$> visit_variable ti vo name_index (st, v).
Proof.
  intros Hti. unfold visit_variable. simpl.
  destruct (get_variables ti (particle_data st) !! name_index.2) as [p|]; [|done].
  simpl. destruct (get_arrays ti (memory st) !! p) as [variable|]; [|done].
  simpl. destruct Hti; simpl.
  - destruct (on_real vo _ _ _); done.
  - destruct (on_vecd vo _ _ _); done.
  - destruct (on_matd vo _ _ _); done.
  - destruct (on_int vo _ _ _); done.
Qed.

Lemma visit_all_recorded {T V} (ti : ParticleDataTypeIndex T)
    (vo : VariableOperation V) entries :
  type_index T ti →
  ∀ st v log,
  visit_all ti (recorded vo) entries (st, (v, log))
  = (λ w, (w.1, (w.2, log ++ ((λ e : string * nat, (category ti, e.1)) <$> entries))))
      <$> visit_all ti vo entries (st, v).
Proof.
  intros Hti. induction entries as [|e entries IH]; intros st v log.
  - simpl. by rewrite app_nil_r.
  - simpl. rewrite (visit_variable_recorded ti vo e st v log Hti).
    destruct (visit_variable ti vo e (st, v)) as [[st1 v1]|]; [|done].
    simpl. rewrite IH. rewrite <- app_assoc. done.
Qed.

(** A visit keeps the pointer vectors and the set of allocated arrays. *)
Lemma visit_variable_keeps {T V} (ti : ParticleDataTypeIndex T)
    (vo : VariableOperation V) name_index (w w' : Store * V) :
  type_index T ti →
  visit_variable ti vo name_index w = Some w' →
  particle_data w'.1 = particle_data w.1 ∧
  allocated (memory w'.1) = allocated (memory w.1).
Proof.
  intros Hti. unfold visit_variable.
  destruct (get_variables ti _ !! _) as [p|]; [|done]. simpl.
  destruct (get_arrays ti (memory w.1) !! p) as [variable|] eqn:Hp; [|done]. simpl.
  destruct (call ti vo _ _ _) as [r|]; [|done]. simpl.
  intros [= <-]. simpl. split; [done|].
  assert (is_Some (get_arrays ti (memory w.1) !! p)) as Hs by eauto.
  unfold allocated. destruct Hti; simpl in *;
    by rewrite dom_insert_lookup_L.
Qed.

Lemma visit_all_total {T V} (ti : ParticleDataTypeIndex T)
    (vo : VariableOperation V) entries :
  type_index T ti → returns_normally vo →
  ∀ w : Store * V,
  Forall (λ e : string * nat,
            is_Some (p ← get_variables ti (particle_data w.1) !! e.2;
                     get_arrays ti (memory w.1) !! p)) entries →
  ∃ w', visit_all ti vo entries w = Some w' ∧
        particle_data w'.1 = particle_data w.1 ∧
        allocated (memory w'.1) = allocated (memory w.1).
Proof.
  intros Hti Hvo. induction entries as [|e entries IH]; intros w Hall.
  - exists w. done.
  - apply Forall_cons in Hall as [He Hall].
    assert (∃ w1, visit_variable ti vo e w = Some w1) as [w1 H1].
    { unfold visit_variable.
      destruct (get_variables ti _ !! _) as [p|];
        [|by apply is_Some_None in He]. simpl in *.
      destruct (get_arrays ti (memory w.1) !! p) as [variable|];
        [|by apply is_Some_None in He].
      simpl. destruct Hvo as (Hr & Hv & Hm & Hi).
      destruct Hti; simpl;
        [destruct (Hr e.1 variable w.2) as [r ->]
        |destruct (Hv e.1 variable w.2) as [r ->]
        |destruct (Hm e.1 variable w.2) as [r ->]
        |destruct (Hi e.1 variable w.2) as [r ->]]; simpl; eauto. }
    destruct (visit_variable_keeps ti vo e w w1 Hti H1) as [Hpd Hal].
    destruct (IH w1) as (w' & Hrun & Hpd' & Hal').
    { eapply Forall_impl; [exact Hall|]. intros e' He'. simpl in *.
      rewrite Hpd.
      destruct (get_variables ti (particle_data w.1) !! e'.2) as [p|];
        [|by apply is_Some_None in He']. simpl in *.
      unfold allocated in Hal.
      destruct Hti; simpl in *; apply elem_of_dom; apply elem_of_dom in He';
        congruence. }
    exists w'. simpl. rewrite H1. simpl. split; [done|].
    split; congruence.
Qed.

Lemma elem_of_map_entries (m : gmap string nat) name i :
  (name, i) ∈ map_entries m ↔ m !! name = Some i.
Proof.
  unfold map_entries. rewrite merge_sort_Permutation.
  apply elem_of_map_to_list.
Qed.

Lemma NoDup_map_entries_names (m : gmap string nat) :
  NoDup ((map_entries m).*1).
Proof.
  unfold map_entries. rewrite merge_sort_Permutation.
  apply NoDup_fst_map_to_list.
Qed.

Lemma manual_iteration_unfold (m : ParticleDataMap) :
  manual_iteration m =
  ((λ e : string * nat, (Scalar, e.1)) <$> map_entries (real_map m)) ++
  ((λ e : string * nat, (Vector, e.1)) <$> map_entries (vecd_map m)) ++
  ((λ e : string * nat, (Tensor, e.1)) <$> map_entries (matd_map m)) ++
  ((λ e : string * nat, (Integer, e.1)) <$> map_entries (int_map m)).
Proof. unfold manual_iteration. simpl. by rewrite app_nil_r. Qed.

Lemma elem_of_tagged_entries (c c' : Category) (m : gmap string nat) name :
  (c', name) ∈ (λ e : string * nat, (c, e.1)) <$> map_entries m
  ↔ c' = c ∧ is_Some (m !! name).
Proof.
  rewrite list_elem_of_fmap. split.
  - intros ([n i] & [= -> ->] & Hin). split; [done|].
    apply elem_of_map_entries in Hin. eauto.
  - intros [-> [i Hi]]. exists (name, i). split; [done|].
    by apply elem_of_map_entries.
Qed.




Lemma recorded_dispatch {V} (m : ParticleDataMap) (vo : VariableOperation V)
    (st : Store) (v : V) (log : list (Category * string)) :
  apply_operation loop_particle_data_map (m, recorded vo) (st, (v, log))
  = (λ w, (w.1, (w.2, log ++ manual_iteration m)))
      <$> apply_operation loop_particle_data_map (m, vo) (st, v).
Proof.
  rewrite manual_iteration_unfold.
  unfold apply_operation, loop_particle_data_map, instantiate,
    loopParticleDataMap. simpl.
  rewrite (visit_all_recorded real_index vo _ type_index_real).
  destruct (visit_all real_index vo _ _) as [[st1 v1]|]; [|done]. simpl.
  rewrite (visit_all_recorded vecd_index vo _ type_index_vecd).
  destruct (visit_all vecd_index vo _ _) as [[st2 v2]|]; [|done]. simpl.
  rewrite (visit_all_recorded matd_index vo _ type_index_matd).
  destruct (visit_all matd_index vo _ _) as [[st3 v3]|]; [|done]. simpl.
  rewrite (visit_all_recorded int_index vo _ type_index_int).
  destruct (visit_all int_index vo _ _) as [[st4 v4]|]; [|done]. simpl.
  by rewrite <- !app_assoc.
Qed.


End DispatcherProofs.

(** ** The time-stepping control *)

Section SchedulerProofs.
Context {Real : Type} {arith : RealArith Real}.
Local Abbreviation State := (State Real).
Local Abbreviation Event := (Event Real).
Local Abbreviation Estimators := (Estimators Real).
Implicit Types (s : State) (est : Estimators) (tr : list Event).

(** *** Reading a trace *)

Lemma applied_dts_app tr1 tr2 :
  applied_dts (tr1 ++ tr2) = applied_dts tr1 ++ applied_dts tr2.
Proof. apply omap_app. Qed.

Lemma refreshes_app tr1 tr2 :
  refreshes (tr1 ++ tr2) = refreshes tr1 ++ refreshes tr2.
Proof. apply omap_app. Qed.

Lemma outer_steps_begun_app tr1 tr2 :
  outer_steps_begun (tr1 ++ tr2) = outer_steps_begun tr1 + outer_steps_begun tr2.
Proof. unfold outer_steps_begun. by rewrite filter_app, length_app. Qed.

Lemma output_events_quiet s :
  applied_dts (output_events s) = [] ∧
  refreshes (output_events s) = [] ∧
  outer_steps_begun (output_events s) = 0.
Proof.
  unfold output_events.
  destruct (_ =? 0)%Z; [|done].
  destruct (negb _ && _); destruct (_ =? 0)%Z; done.
Qed.


(** *** What each transition does to the clocks and to the trace *)

Lemma step_acoustic est s :
  location s = AtAcousticLoop →
  real_ltb (relaxation_time s) (Dt s) = true →
  step est s = acoustic_step est s.
Proof. intros Hl Hg. unfold step. by rewrite Hl, Hg. Qed.

Lemma step_end_outer est s :
  location s = AtAcousticLoop →
  real_ltb (relaxation_time s) (Dt s) = false →
  step est s = end_outer_step s.
Proof. intros Hl Hg. unfold step. by rewrite Hl, Hg. Qed.

Lemma step_begin_outer est s :
  location s = AtInnerLoop →
  real_ltb (integration_time s) output_interval = true →
  step est s = begin_outer_step est s.
Proof. intros Hl Hg. unfold step. by rewrite Hl, Hg. Qed.



(** *** The refreshes of the spatial structures *)

Lemma step_refreshes est s :
  (location s = AtAcousticLoop ∧ real_ltb (relaxation_time s) (Dt s) = false ∧
   refreshes (trace (step est s)) = refreshes (trace s) ++ refresh_sequence)
  ∨ refreshes (trace (step est s)) = refreshes (trace s).
Proof.
  unfold step. destruct (location s) eqn:Hl.
  - right. destruct (real_ltb _ _); simpl; [done|].
    by rewrite refreshes_app, app_nil_r.
  - right. destruct (real_ltb _ _); simpl; by rewrite refreshes_app, app_nil_r.
  - destruct (real_ltb _ _) eqn:Hg; simpl.
    + right. by rewrite refreshes_app, app_nil_r.
    + left. rewrite !refreshes_app.
      destruct (output_events_quiet s) as (_ & -> & _). done.
  - right. done.
Qed.

Lemma mjoin_replicate_S {A} (n : nat) (l : list A) :
  mjoin (replicate (S n) l) = mjoin (replicate n l) ++ l.
Proof.
  change (l ++ mjoin (replicate n l) = mjoin (replicate n l) ++ l).
  induction n as [|n IH]; [simpl; by rewrite app_nil_r|].
  change (mjoin (replicate (S n) l)) with (l ++ mjoin (replicate n l)).
  rewrite <- app_assoc. f_equal. exact IH.
Qed.

Lemma refreshes_completed est n :
  let s := run est n initial_state in
  refreshes (trace s) = mjoin (replicate (outer_steps_completed s) refresh_sequence) ∧
  (location s = AtAcousticLoop → 0 < outer_steps_begun (trace s)).
Proof.
  induction n as [|n IH]; [split; [reflexivity|discriminate]|].
  simpl in *. destruct IH as [IH Hpos].
  set (s := run est n initial_state) in *.
  unfold step, outer_steps_completed in *. destruct (location s) eqn:Hl.
  - destruct (real_ltb _ _); simpl; [by rewrite Nat.sub_0_r in *|].
    rewrite refreshes_app, outer_steps_begun_app, app_nil_r. simpl.
    rewrite Nat.add_0_r. done.
  - destruct (real_ltb _ _); simpl;
      rewrite refreshes_app, outer_steps_begun_app, app_nil_r; simpl.
    + rewrite IH. split; [f_equal; f_equal; unfold outer_steps_begun; simpl; lia|].
      unfold outer_steps_begun; simpl; lia.
    + by rewrite Nat.add_0_r.
  - destruct (real_ltb _ _).
    + simpl. rewrite refreshes_app, outer_steps_begun_app, app_nil_r. simpl.
      rewrite Nat.add_0_r. auto.
    + cbn [end_outer_step trace location].
      rewrite !refreshes_app, !outer_steps_begun_app.
      destruct (output_events_quiet s) as (_ & -> & ->).
      change (refreshes (map Refreshing refresh_sequence : list Event))
        with refresh_sequence.
      change (outer_steps_begun (map Refreshing refresh_sequence : list Event))
        with 0.
      rewrite IH. split; [|done]. specialize (Hpos eq_refl).
      replace (outer_steps_begun (trace s) + (0 + 0) - 0)
        with (S (outer_steps_begun (trace s) - 1)) by lia.
      by rewrite mjoin_replicate_S.
  - rewrite Hl. split; [exact IH|discriminate].
Qed.

(** C9.  At every point of every run from the initial state, the refresh
    calls made so far are the sequence of lines 194-202 (both bodies' cell
    linked lists with particle sort and the five relations' configurations,
    each once) repeated once per completed outer step.  A transition makes
    refresh calls only when control is at the acoustic loop and its test
    [relaxation_time < Dt] fails, and then it makes that sequence; a pass
    through the body of the acoustic loop makes none. *)
Theorem refresh_once_per_outer_step est n :
  let s := run est n initial_state in
  refreshes (trace s)
    = mjoin (replicate (outer_steps_completed s) refresh_sequence) ∧
  (refreshes (trace (step est s)) ≠ refreshes (trace s) →
     location s = AtAcousticLoop ∧
     real_ltb (relaxation_time s) (Dt s) = false) ∧
  (location s = AtAcousticLoop →
     real_ltb (relaxation_time s) (Dt s) = false →
     refreshes (trace (step est s)) = refreshes (trace s) ++ refresh_sequence ∧
     location (step est s) = AtInnerLoop) ∧
  NoDup refresh_sequence ∧
  (∀ body, UpdateCellLinkedListWithParticleSort body 100 ∈ refresh_sequence) ∧
  (∀ relation, UpdateConfiguration relation ∈ refresh_sequence).
Proof.
  intros s. split; [apply (refreshes_completed est n)|].
  split; [|split; [|split; [|split]]].
  - intros Hne. destruct (step_refreshes est s) as [(Hl & Hg & _)|He]; done.
  - intros Hl Hg. rewrite (step_end_outer est s Hl Hg).
    destruct (step_refreshes est s) as [(_ & _ & He)|He].
    + rewrite (step_end_outer est s Hl Hg) in He. done.
    + exfalso. rewrite (step_end_outer est s Hl Hg) in He.
      cbn [end_outer_step trace] in He. rewrite !refreshes_app in He.
      destruct (output_events_quiet s) as (_ & Hq & _). rewrite Hq in He.
      apply (f_equal length) in He. rewrite length_app in He.
      simpl in He. lia.
  - by apply (bool_decide_unpack _).
  - intros []; by apply (bool_decide_unpack _).
  - intros []; by apply (bool_decide_unpack _).
Qed.


(** *** The minimum of two values *)

Lemma SMIN_cases (a b : Real) :
  (real_leb a b = true ∧ SMIN a b = a) ∨ (real_leb a b = false ∧ SMIN a b = b).
Proof. unfold SMIN. destruct (real_leb a b); auto. Qed.

Lemma SMIN_choice (a b : Real) : SMIN a b = a ∨ SMIN a b = b.
Proof. destruct (SMIN_cases a b) as [[_ ->]|[_ ->]]; auto. Qed.

(** *** Consequences of the laws of comparison *)

Section Comparison.
Context {compare : RealCompare Real}.

Lemma SMIN_number (a b : Real) :
  is_number a → is_number b → is_number (SMIN a b).
Proof. intros Ha Hb. by destruct (SMIN_choice a b) as [-> | ->]. Qed.

Lemma SMIN_le (a b : Real) :
  is_number a → is_number b →
  real_leb (SMIN a b) a = true ∧ real_leb (SMIN a b) b = true.
Proof.
  intros Ha Hb. destruct (SMIN_cases a b) as [[Hab ->]|[Hab ->]]; [done|].
  split; [|done].
  destruct (real_leb_comparable a b Ha Hb); congruence.
Qed.

(** C4.  In every iteration of the inner loop the outer step [Dt] is
    [SMIN] of the two advection estimates, whatever they are: it is one of
    them, the water estimate when [Dt_f <= Dt_a] holds and the air estimate
    when it does not.  When neither estimate is a NaN it is their minimum:
    it exceeds neither (estimates 0.02 and 0.03 give 0.02). *)
Theorem outer_step_is_minimum est s :
  location s = AtInnerLoop →
  real_ltb (integration_time s) output_interval = true →
  let Dt_f := advection_time_step_size est Water (advection_calls s) in
  let Dt_a := advection_time_step_size est Air (advection_calls s) in
  let s' := step est s in
  Dt s' = SMIN Dt_f Dt_a ∧
  (Dt s' = Dt_f ∨ Dt s' = Dt_a) ∧
  (real_leb Dt_f Dt_a = true → Dt s' = Dt_f) ∧
  (real_leb Dt_f Dt_a = false → Dt s' = Dt_a) ∧
  (is_number Dt_f → is_number Dt_a →
     real_leb (Dt s') Dt_f = true ∧ real_leb (Dt s') Dt_a = true).
Proof.
  intros Hl Hg Dt_f Dt_a s'. subst s'.
  rewrite (step_begin_outer est s Hl Hg). cbn [begin_outer_step Dt].
  fold Dt_f Dt_a. split; [done|]. split; [apply SMIN_choice|].
  split; [|split]; [| |apply SMIN_le].
  - intros Hle. unfold SMIN. by rewrite Hle.
  - intros Hle. unfold SMIN. by rewrite Hle.
Qed.

(** C1, as the code has it.  The acoustic loop is entered with
    [relaxation_time = 0].  In every iteration of it the inner step [dt] is
    [SMIN] of the two acoustic estimates capped at [Dt] itself (the whole
    outer step, not what remains of it): it is one of the two estimates or
    [Dt], when neither estimate is a NaN it exceeds neither their minimum
    nor [Dt], and [relaxation_time] grows by exactly that [dt].  The loop is
    left when [relaxation_time < Dt] fails; when both are numbers, that is
    when [relaxation_time] is at least [Dt]. *)
Theorem inner_step_capped_by_Dt est s :
  let dt_f := acoustic_time_step_size est Water (acoustic_calls s) in
  let dt_a := acoustic_time_step_size est Air (acoustic_calls s) in
  let s' := step est s in
  (location s = AtInnerLoop →
   real_ltb (integration_time s) output_interval = true →
     location s' = AtAcousticLoop ∧ relaxation_time s' = real_lit 0) ∧
  (location s = AtAcousticLoop →
   real_ltb (relaxation_time s) (Dt s) = true →
     dt s' = SMIN (SMIN dt_f dt_a) (Dt s) ∧
     (dt s' = dt_f ∨ dt s' = dt_a ∨ dt s' = Dt s) ∧
     (is_number dt_f → is_number dt_a →
        real_leb (dt s') (SMIN dt_f dt_a) = true ∧
        real_leb (dt s') (Dt s) = true) ∧
     relaxation_time s' = real_add (relaxation_time s) (dt s') ∧
     Dt s' = Dt s ∧ location s' = AtAcousticLoop) ∧
  (location s = AtAcousticLoop →
   real_ltb (relaxation_time s) (Dt s) = false →
     location s' = AtInnerLoop ∧
     relaxation_time s' = relaxation_time s ∧
     (is_number (relaxation_time s) → is_number (Dt s) →
        real_leb (Dt s) (relaxation_time s) = true)).
Proof.
  intros dt_f dt_a s'. subst s'. split; [|split]; intros Hl Hg.
  - rewrite (step_begin_outer est s Hl Hg). done.
  - rewrite (step_acoustic est s Hl Hg).
    cbn [acoustic_step dt relaxation_time Dt location]. fold dt_f dt_a.
    split; [done|]. split; [|split; [|done]].
    + destruct (SMIN_choice (SMIN dt_f dt_a) (Dt s)) as [-> | ->]; [|auto].
      destruct (SMIN_choice dt_f dt_a) as [-> | ->]; auto.
    + intros Hf Ha. apply SMIN_le; [by apply SMIN_number|].
      by destruct (real_ltb_numbers _ _ Hg).
  - rewrite (step_end_outer est s Hl Hg).
    cbn [end_outer_step relaxation_time location].
    split; [done|]. split; [done|]. intros Hr HD.
    rewrite (real_ltb_not_leb _ _ Hr HD) in Hg. by apply negb_false_iff.
Qed.
End Comparison.

(** *** Consequences of the order laws *)

Section Order.
Context {order : RealOrder Real}.





End Order.
End SchedulerProofs.

(** ** The order laws give the laws of comparison

    Under [RealOrder] every value is a number, so what is stated under
    [RealCompare] for numbers holds there for every value. *)

#[global] Instance RealOrder_compare {Real : Type} `{RealOrder Real} :
  RealCompare Real.
Proof.
  split.
  - intros x y _. unfold is_number.
    split; [by destruct (real_leb_total x x)|by destruct (real_leb_total y y)].
  - intros x y _ _. apply real_leb_total.
  - intros x y _ _. apply real_ltb_leb.
Qed.

(** ** The rationals satisfy the order laws *)

#[global] Instance Q_order : RealOrder Q.
Proof.
  split; simpl.
  - intros x y. rewrite !Qle_bool_iff. destruct (Qlt_le_dec x y); [left|right]; lra.
  - intros x y z. rewrite !Qle_bool_iff. lra.
  - done.
  - intros x d. rewrite !Qle_bool_iff, !Qred_correct. lra.
Qed.

(** ** Binary64 satisfies the laws of comparison

    The comparisons of [double] are those of the IEEE 754 values the
    floating-point numbers stand for: no order on a NaN, and the order of
    the extended reals on the others. *)

Lemma SFcompare_antisym (x y : SpecFloat.spec_float) :
  SpecFloat.SFcompare y x = option_map CompOpp (SpecFloat.SFcompare x y).
Proof.
  destruct x as [s1| s1| |s1 m1 e1], y as [s2| s2| |s2 m2 e2]; simpl;
    try reflexivity;
    try (destruct s1; reflexivity); try (destruct s2; reflexivity);
    try (destruct s1, s2; reflexivity).
  destruct s1, s2; simpl; try reflexivity;
    change (Pos.compare_cont Eq m2 m1) with (Pos.compare m2 m1);
    change (Pos.compare_cont Eq m1 m2) with (Pos.compare m1 m2);
    rewrite (Z.compare_antisym e1 e2); destruct (e1 ?= e2)%Z; simpl;
    try reflexivity; rewrite (Pos.compare_antisym m1 m2);
    destruct (m1 ?= m2)%positive; reflexivity.
Qed.

Lemma SFcompare_refl (x : SpecFloat.spec_float) :
  x ≠ SpecFloat.S754_nan → SpecFloat.SFcompare x x = Some Eq.
Proof.
  destruct x as [s| s| |s m e]; simpl; try congruence; intros _.
  - destruct s; reflexivity.
  - change (Pos.compare_cont Eq m m) with (Pos.compare m m).
    destruct s; rewrite Z.compare_refl, Pos.compare_refl; reflexivity.
Qed.

Lemma SFcompare_numbers (x y : SpecFloat.spec_float) :
  SpecFloat.SFleb x x = true → SpecFloat.SFleb y y = true →
  ∃ c, SpecFloat.SFcompare x y = Some c.
Proof.
  unfold SpecFloat.SFleb. destruct x, y; simpl; try discriminate; eauto.
Qed.

#[global] Instance binary64_compare : RealCompare float.
Proof.
  split; unfold is_number; simpl; intros x y.
  - rewrite !FloatAxioms.leb_spec, FloatAxioms.ltb_spec.
    unfold SpecFloat.SFltb, SpecFloat.SFleb. intros Hlt.
    assert (FloatOps.Prim2SF x ≠ SpecFloat.S754_nan) as Hx
      by (intros E; rewrite E in Hlt; discriminate).
    assert (FloatOps.Prim2SF y ≠ SpecFloat.S754_nan) as Hy
      by (intros E; rewrite E in Hlt; destruct (FloatOps.Prim2SF x); discriminate).
    by rewrite !SFcompare_refl.
  - rewrite !FloatAxioms.leb_spec. intros Hx Hy.
    destruct (SFcompare_numbers _ _ Hx Hy) as [c Hc].
    unfold SpecFloat.SFleb.
    rewrite (SFcompare_antisym (FloatOps.Prim2SF x) (FloatOps.Prim2SF y)), Hc.
    destruct c; simpl; auto.
  - rewrite !FloatAxioms.leb_spec, FloatAxioms.ltb_spec. intros Hx Hy.
    destruct (SFcompare_numbers _ _ Hx Hy) as [c Hc].
    unfold SpecFloat.SFleb, SpecFloat.SFltb.
    rewrite (SFcompare_antisym (FloatOps.Prim2SF x) (FloatOps.Prim2SF y)), Hc.
    by destruct c.
Qed.

(** In binary64 the numbers are the values other than NaN. *)
Lemma binary64_is_number (x : float) :
  is_number x ↔ FloatOps.Prim2SF x ≠ SpecFloat.S754_nan.
Proof.
  unfold is_number. simpl. rewrite FloatAxioms.leb_spec.
  unfold SpecFloat.SFleb. split.
  - intros H E. rewrite E in H. discriminate.
  - intros H. by rewrite SFcompare_refl.
Qed.

(** ** The definitions at work *)

(** The spec's scenario: the outer step is 0.02, four inner steps of 0.005
    are applied, and the acoustic loop is left with the relaxation time at
    0.02. *)
Example scenario_trace :
  let s := run scenario_estimates 6 initial_state in
  Dt s = real_lit 0.02 ∧
  applied_dts (trace s)
    = [real_lit 0.005; real_lit 0.005; real_lit 0.005; real_lit 0.005] ∧
  relaxation_time s = real_lit 0.02 ∧ physical_time s = real_lit 0.02 ∧
  location (step scenario_estimates s) = AtInnerLoop.
Proof. vm_compute. done. Qed.

(** Swapping particles 0 and 2 of the example store. *)
Example swap_example :
  memory <$> apply_operation swap_particle_data_value (0, 2) example_store
  = Some {|
      real_arrays := {[ 10 := [3%Q; 2%Q; 1%Q]; 11 := [30%Q; 20%Q; 10%Q] ]};
      vecd_arrays := {[ 20 := [(4%Q, 5%Q); (2%Q, 3%Q); (0%Q, 1%Q)] ]};
      matd_arrays := {[ 30 := [((3%Q, 0%Q), (0%Q, 3%Q)); ((2%Q, 0%Q), (0%Q, 2%Q));
                               ((1%Q, 0%Q), (0%Q, 1%Q))] ]};
      int_arrays := {[ 40 := [9%Z; 8%Z; 7%Z] ]} |}.
Proof. vm_compute. done. Qed.

(** An index past the end of the arrays is not repaired: the swap has no
    defined result. *)
Example swap_out_of_range :
  apply_operation swap_particle_data_value (0, 3) example_store = None.
Proof. vm_compute. done. Qed.

(** When one array is registered twice, the loop swaps its elements twice,
    which puts them back: the store is only as good as its pointer
    vectors. *)
Example swap_aliased :
  memory <$> apply_operation swap_particle_data_value (0, 2) aliased_store
  = Some {|
      real_arrays := {[ 10 := [1%Q; 2%Q; 3%Q]; 11 := [10%Q; 20%Q; 30%Q] ]};
      vecd_arrays := {[ 20 := [(4%Q, 5%Q); (2%Q, 3%Q); (0%Q, 1%Q)] ]};
      matd_arrays := {[ 30 := [((3%Q, 0%Q), (0%Q, 3%Q)); ((2%Q, 0%Q), (0%Q, 2%Q));
                               ((1%Q, 0%Q), (0%Q, 1%Q))] ]};
      int_arrays := {[ 40 := [9%Z; 8%Z; 7%Z] ]} |}.
Proof. vm_compute. done. Qed.

(** The data maps of the example are gone through by category, and within a
    category in the order of the names. *)
Example loop_example :
  snd <$> apply_operation loop_particle_data_map
            (example_map, recorded idle_operation) (example_store, (tt, []))
  = Some (tt, [ (Scalar, "Density"); (Scalar, "Pressure"); (Vector, "Velocity");
                (Tensor, "DeformationGradient"); (Integer, "SortedID") ]).
Proof. vm_compute. done. Qed.

(** ** The theorems at concrete inputs *)

Lemma swap_exchanges_witness :
  store_ok 3 example_store ∧ 0 < 3 ∧ 2 < 3 ∧
  ∃ st',
    apply_operation swap_particle_data_value (0, 2) example_store = Some st' ∧
    ∀ T (ti : ParticleDataTypeIndex T), type_index T ti →
    ∀ i, i < length (get_variables ti (particle_data example_store)) →
      is_Some (element ti example_store i 0) ∧
      is_Some (element ti example_store i 2) ∧
      element ti st' i 2 = element ti example_store i 0 ∧
      element ti st' i 0 = element ti example_store i 2.
Proof.
  assert (store_ok 3 example_store) as Hok
    by (apply (bool_decide_unpack _); vm_compute; reflexivity).
  split; [exact Hok|]. split; [lia|]. split; [lia|].
  apply (swap_exchanges 3 example_store 0 2 Hok); lia.
Defined.

Lemma swap_involutive_witness :
  store_ok 3 example_store ∧ 0 < 3 ∧ 2 < 3 ∧
  apply_operation swap_particle_data_value (0, 2) example_store
    ≫= apply_operation swap_particle_data_value (0, 2) = Some example_store.
Proof.
  assert (store_ok 3 example_store) as Hok
    by (apply (bool_decide_unpack _); vm_compute; reflexivity).
  split; [exact Hok|]. split; [lia|]. split; [lia|].
  apply (swap_involutive 3 example_store 0 2 Hok); lia.
Defined.

Lemma swap_frame_witness :
  store_ok 3 example_store ∧ 0 < 3 ∧ 2 < 3 ∧
  ∃ st',
    apply_operation swap_particle_data_value (0, 2) example_store = Some st' ∧
    particle_data st' = particle_data example_store ∧
    array_lengths (memory st') = array_lengths (memory example_store) ∧
    ∀ T (ti : ParticleDataTypeIndex T), type_index T ti →
    ∀ i k, k ≠ 0 → k ≠ 2 → element ti st' i k = element ti example_store i k.
Proof.
  assert (store_ok 3 example_store) as Hok
    by (apply (bool_decide_unpack _); vm_compute; reflexivity).
  split; [exact Hok|]. split; [lia|]. split; [lia|].
  apply (swap_frame 3 example_store 0 2 Hok); lia.
Defined.


Lemma outer_step_is_minimum_witness :
  location (run scenario_estimates_binary64 1 initial_state) = AtInnerLoop ∧
  real_ltb (integration_time (run scenario_estimates_binary64 1 initial_state))
           output_interval = true ∧
  advection_time_step_size scenario_estimates_binary64 Water 0 = real_lit 0.02 ∧
  advection_time_step_size scenario_estimates_binary64 Air 0 = real_lit 0.03 ∧
  is_number (real_lit 0.02 : float) ∧ is_number (real_lit 0.03 : float) ∧
  Dt (step scenario_estimates_binary64
        (run scenario_estimates_binary64 1 initial_state)) = real_lit 0.02 ∧
  real_leb (Dt (step scenario_estimates_binary64
                  (run scenario_estimates_binary64 1 initial_state)))
           (real_lit 0.03) = true.
Proof.
  assert (location (run scenario_estimates_binary64 1 initial_state) = AtInnerLoop)
    as Hl by reflexivity.
  assert (real_ltb (integration_time (run scenario_estimates_binary64 1 initial_state))
                   output_interval = true) as Hg by (vm_compute; reflexivity).
  assert (is_number (real_lit 0.02 : float)) as Hf by (vm_compute; reflexivity).
  assert (is_number (real_lit 0.03 : float)) as Ha by (vm_compute; reflexivity).
  split; [exact Hl|]. split; [exact Hg|].
  split; [reflexivity|]. split; [reflexivity|].
  split; [exact Hf|]. split; [exact Ha|].
  destruct (outer_step_is_minimum scenario_estimates_binary64
              (run scenario_estimates_binary64 1 initial_state) Hl Hg)
    as (_ & _ & Hw & _ & Hle).
  split; [apply Hw; vm_compute; reflexivity|].
  exact (proj2 (Hle Hf Ha)).
Defined.

Lemma inner_step_capped_by_Dt_witness :
  location (run scenario_estimates_binary64 2 initial_state) = AtAcousticLoop ∧
  real_ltb (relaxation_time (run scenario_estimates_binary64 2 initial_state))
           (Dt (run scenario_estimates_binary64 2 initial_state)) = true ∧
  is_number (real_lit 0.005 : float) ∧ is_number (real_lit 0.007 : float) ∧
  dt (run scenario_estimates_binary64 3 initial_state)
    = SMIN (SMIN (real_lit 0.005) (real_lit 0.007)) (real_lit 0.02) ∧
  real_leb (dt (run scenario_estimates_binary64 3 initial_state))
           (Dt (run scenario_estimates_binary64 2 initial_state)) = true ∧
  relaxation_time (run scenario_estimates_binary64 3 initial_state)
    = real_add (real_lit 0) (dt (run scenario_estimates_binary64 3 initial_state)).
Proof.
  assert (location (run scenario_estimates_binary64 2 initial_state) = AtAcousticLoop)
    as Hl by reflexivity.
  assert (real_ltb (relaxation_time (run scenario_estimates_binary64 2 initial_state))
                   (Dt (run scenario_estimates_binary64 2 initial_state)) = true)
    as Hg by (vm_compute; reflexivity).
  assert (is_number (real_lit 0.005 : float)) as Hf by (vm_compute; reflexivity).
  assert (is_number (real_lit 0.007 : float)) as Ha by (vm_compute; reflexivity).
  split; [exact Hl|]. split; [exact Hg|]. split; [exact Hf|]. split; [exact Ha|].
  destruct (inner_step_capped_by_Dt scenario_estimates_binary64
              (run scenario_estimates_binary64 2 initial_state)) as (_ & H & _).
  destruct (H Hl Hg) as (Hdt & _ & Hle & Hrt & _).
  split; [exact Hdt|]. split; [exact (proj2 (Hle Hf Ha))|exact Hrt].
Defined.



(** ** Where the code departs from the spec *)

(** C1 fails on the code.  With an outer step of 0.02 and acoustic estimates
    0.006 and 0.007, the fourth acoustic iteration starts with
    [relaxation_time = 0.018]; the step applied is 0.006, not the remaining
    0.002, and the loop is left with [relaxation_time = 0.024], past [Dt]. *)
Lemma inner_step_overshoots :
  location (run uneven_estimates 5 initial_state) = AtAcousticLoop ∧
  Dt (run uneven_estimates 5 initial_state) = real_lit 0.02 ∧
  relaxation_time (run uneven_estimates 5 initial_state) = real_lit 0.018 ∧
  real_ltb (relaxation_time (run uneven_estimates 5 initial_state))
           (Dt (run uneven_estimates 5 initial_state)) = true ∧
  dt (run uneven_estimates 6 initial_state) = real_lit 0.006 ∧
  ¬ (dt (run uneven_estimates 6 initial_state)
     == Qmin (Qmin 0.006 0.007)
             (Dt (run uneven_estimates 5 initial_state)
              - relaxation_time (run uneven_estimates 5 initial_state)))%Q ∧
  location (run uneven_estimates 7 initial_state) = AtInnerLoop ∧
  relaxation_time (run uneven_estimates 7 initial_state) = real_lit 0.024 ∧
  ¬ (relaxation_time (run uneven_estimates 7 initial_state)
     == Dt (run uneven_estimates 7 initial_state))%Q.
Proof. vm_compute. repeat split; try reflexivity; intros H; discriminate H. Qed.



(** A zero acoustic estimate is applied too: the acoustic loop then never
    ends, with every clock standing still. *)
Lemma zero_step_stalls (n : nat) :
  location (run zero_estimates (2 + n) initial_state) = AtAcousticLoop ∧
  physical_time (run zero_estimates (2 + n) initial_state) = real_lit 0 ∧
  relaxation_time (run zero_estimates (2 + n) initial_state) = real_lit 0 ∧
  Dt (run zero_estimates (2 + n) initial_state) = real_lit 0.02.
Proof.
  induction n as [|n (Hl & Ht & Hr & HD)]; [by vm_compute|].
  replace (2 + S n)%nat with (S (2 + n)) by lia.
  cbn [run]. set (s := run zero_estimates (2 + n) initial_state) in *.
  assert (real_ltb (relaxation_time s) (Dt s) = true) as Hg
    by (by rewrite Hr, HD).
  rewrite (step_acoustic zero_estimates s Hl Hg).
  cbn [acoustic_step location physical_time relaxation_time Dt].
  rewrite Ht, Hr, HD. by vm_compute.
Qed.

(** A NaN among the estimates, in binary64.  The comparisons fail on it and
    [SMIN] then returns its second argument: with an air advection estimate
    that is a NaN the outer step is that NaN, which stands in no order to
    either estimate; the acoustic loop is left at once, with
    [relaxation_time = 0], and the failure of [relaxation_time < Dt] does
    not mean that [relaxation_time] has reached [Dt]. *)
Example binary64_nan_estimate :
  let s := run nan_estimates_binary64 2 initial_state in
  location s = AtAcousticLoop ∧
  real_leb (Dt s) (Dt s) = false ∧
  real_leb (Dt s) (real_lit 0.02) = false ∧
  relaxation_time s = real_lit 0 ∧
  real_ltb (relaxation_time s) (Dt s) = false ∧
  real_leb (Dt s) (relaxation_time s) = false ∧
  location (step nan_estimates_binary64 s) = AtInnerLoop.
Proof. vm_compute. done. Qed.

(** The departures do not come from exact arithmetic: in binary64 the
    uneven estimates leave the acoustic loop with [relaxation_time] above
    [Dt] (0.024 against 0.02), and the negative estimate moves the physical
    time below zero. *)
Example binary64_runs :
  location (run uneven_estimates_binary64 7 initial_state) = AtInnerLoop ∧
  real_ltb (Dt (run uneven_estimates_binary64 7 initial_state))
           (relaxation_time (run uneven_estimates_binary64 7 initial_state)) = true ∧
  relaxation_time (run uneven_estimates_binary64 7 initial_state)
    = real_lit 0.024 ∧
  location (run negative_estimates_binary64 3 initial_state) = AtAcousticLoop ∧
  real_ltb (physical_time (run negative_estimates_binary64 3 initial_state))
           (real_lit 0) = true.
Proof. vm_compute. done. Qed.

(* ===================================================================== *)
(** * Part III: further properties of the code                            *)
(* ===================================================================== *)

(** ** More on [swapParticleDataValue] *)

Lemma swap_elements_sym {T} (a b : nat) (v : list T) :
  swap_elements a b v = swap_elements b a v.
Proof.
  unfold swap_elements.
  destruct (v !! a) as [x|] eqn:Ha, (v !! b) as [y|] eqn:Hb; simpl; try done.
  f_equal. destruct (decide (a = b)) as [->|Hab]; [congruence|].
  apply list_insert_insert_ne. congruence.
Qed.

Lemma swap_loop_sym {T} (a b : nat) (variables : list addr) :
  ∀ arrays : gmap addr (list T),
  swap_loop variables a b arrays = swap_loop variables b a arrays.
Proof.
  induction variables as [|p variables IH]; intros arrays; [done|].
  simpl. destruct (arrays !! p) as [v|]; [|done]. simpl.
  rewrite (swap_elements_sym a b v).
  destruct (swap_elements b a v); simpl; [apply IH|done].
Qed.

Lemma swapped_same {T} (a : nat) (v v' : list T) : swapped a a v v' → v' = v.
Proof.
  intros (_ & Ha & _ & Ho). apply list_eq. intros i.
  destruct (decide (i = a)) as [->|Hia]; [done|]. by apply Ho.
Qed.

Lemma list_insert_Permutation {T} (l : list T) (i : nat) (x y : T) :
  l !! i = Some y → <[i:=x]> l ≡ₚ x :: delete i l.
Proof.
  revert i. induction l as [|z l IH]; intros [|i] Hi; try done.
  simpl in *. rewrite (IH i Hi). apply Permutation_swap.
Qed.

Lemma swap_elements_Permutation {T} (a b : nat) (v v' : list T) :
  swap_elements a b v = Some v' → v' ≡ₚ v.
Proof.
  unfold swap_elements.
  destruct (v !! a) as [x|] eqn:Ha; [|done].
  destruct (v !! b) as [y|] eqn:Hb; [|done]. simpl. intros [= <-].
  destruct (decide (a = b)) as [->|Hab].
  { rewrite list_insert_insert_eq, list_insert_id; [done|congruence]. }
  assert ((<[a:=y]> v) !! b = Some y) as Hb'
    by (by rewrite list_lookup_insert_ne).
  etransitivity; [apply (list_insert_Permutation _ b x y Hb')|].
  etransitivity; [|symmetry; apply (delete_Permutation v a x Ha)].
  constructor. apply (inj (y ::.)).
  etransitivity; [symmetry; apply (delete_Permutation _ b y Hb')|].
  apply (list_insert_Permutation v a y x Ha).
Qed.

Lemma swap_loop_Permutation {T} (a b : nat) (variables : list addr) :
  ∀ arrays arrays' : gmap addr (list T),
  swap_loop variables a b arrays = Some arrays' →
  ∀ p, option_Forall2 (≡ₚ) (arrays' !! p) (arrays !! p).
Proof.
  induction variables as [|q variables IH]; intros arrays arrays'; simpl.
  - intros [= <-] p. by destruct (arrays !! p); constructor.
  - destruct (arrays !! q) as [v|] eqn:Hq; [|done]. simpl.
    destruct (swap_elements a b v) as [v'|] eqn:Hsw; [|done]. simpl.
    intros Hrun p. specialize (IH _ _ Hrun p).
    apply swap_elements_Permutation in Hsw.
    destruct (decide (p = q)) as [->|Hpq].
    + rewrite lookup_insert_eq in IH. rewrite Hq.
      inversion IH as [w' w Hw|]; subst. constructor. by rewrite Hw.
    + by rewrite lookup_insert_ne in IH.
Qed.

Lemma swap_loop_dangling {T} (a b : nat) (variables : list addr) (p : addr) :
  p ∈ variables →
  ∀ arrays : gmap addr (list T),
  arrays !! p = None → swap_loop variables a b arrays = None.
Proof.
  induction variables as [|q variables IH]; intros Hp arrays Hnone.
  - by apply elem_of_nil in Hp.
  - simpl. destruct (decide (q = p)) as [->|Hqp]; [by rewrite Hnone|].
    apply elem_of_cons in Hp as [->|Hp]; [done|].
    destruct (arrays !! q) as [v|]; [|done]. simpl.
    destruct (swap_elements a b v) as [v'|]; [|done]. simpl.
    apply IH; [done|]. by rewrite lookup_insert_ne.
Qed.

Lemma swap_loop_out_of_bounds {T} (N a b : nat) (variables : list addr)
    (arrays : gmap addr (list T)) :
  variables_ok N variables arrays → N ≤ a ∨ N ≤ b → variables ≠ [] →
  swap_loop variables a b arrays = None.
Proof.
  intros [_ Hall] Hab Hne. destruct variables as [|p variables]; [done|].
  apply Forall_cons in Hall as [Hp _]. simpl.
  destruct (arrays !! p) as [v|]; [|done]. simpl in *. injection Hp as <-.
  by rewrite (swap_elements_None a b v Hab).
Qed.

Section FurtherSwapProofs.
Context {Real Vecd Matd : Type}.
Local Abbreviation Store := (@Store Real Vecd Matd).
Implicit Types (st : Store) (a b c d N : nat).

Lemma store_ext st1 st2 :
  particle_data st1 = particle_data st2 →
  (∀ T (ti : ParticleDataTypeIndex T), type_index T ti →
     get_arrays ti (memory st1) = get_arrays ti (memory st2)) →
  st1 = st2.
Proof.
  intros Hpd H.
  pose proof (H _ _ type_index_real) as Hr.
  pose proof (H _ _ type_index_vecd) as Hv.
  pose proof (H _ _ type_index_matd) as Hm.
  pose proof (H _ _ type_index_int) as Hi.
  destruct st1 as [pd1 [r1 v1 m1 i1]], st2 as [pd2 [r2 v2 m2 i2]].
  simpl in *. by subst.
Qed.

(** X1.  The order of the two indices does not matter: [swap(a, b)] and
    [swap(b, a)] have the same result on every store, defined or not. *)
Theorem swap_symmetric st a b :
  apply_operation swap_particle_data_value (a, b) st
  = apply_operation swap_particle_data_value (b, a) st.
Proof.
  rewrite !apply_swap_unfold.
  rewrite (swap_loop_sym a b (real_variables _)).
  destruct (swap_loop (real_variables _) b a _); simpl; [|done].
  rewrite (swap_loop_sym a b (vecd_variables _)).
  destruct (swap_loop (vecd_variables _) b a _); simpl; [|done].
  rewrite (swap_loop_sym a b (matd_variables _)).
  destruct (swap_loop (matd_variables _) b a _); simpl; [|done].
  by rewrite (swap_loop_sym a b (int_variables _)).
Qed.

(** X2.  On a store of [N] particles, swapping an index below [N] with
    itself succeeds and changes nothing. *)
Theorem swap_same_index N st a :
  store_ok N st → a < N →
  apply_operation swap_particle_data_value (a, a) st = Some st.
Proof.
  intros Hok Ha.
  destruct (swap_spec N st a a Hok Ha Ha) as (st' & -> & Hpd & _ & _ & Hsw).
  f_equal. apply store_ext; [done|]. intros T ti Hti.
  destruct (Hsw T ti Hti) as [Hin Hout]. apply map_eq. intros p.
  destruct (decide (p ∈ get_variables ti (particle_data st))) as [Hp|Hp].
  - destruct (Hin p Hp) as (v & v' & -> & -> & Hs).
    f_equal. by apply swapped_same in Hs.
  - by apply Hout.
Qed.

(** X3.  Whenever the swap has a result, every array of the free store,
    registered or not, holds afterwards the same values as before, each as
    often as before, and no array appears or disappears. *)
Theorem swap_permutes st st' a b :
  apply_operation swap_particle_data_value (a, b) st = Some st' →
  ∀ T (ti : ParticleDataTypeIndex T), type_index T ti →
  ∀ p, option_Forall2 (≡ₚ) (get_arrays ti (memory st') !! p)
                           (get_arrays ti (memory st) !! p).
Proof.
  rewrite apply_swap_unfold.
  destruct (swap_loop (real_variables _) a b _) as [r|] eqn:Er; [|done].
  destruct (swap_loop (vecd_variables _) a b _) as [v|] eqn:Ev; [|done].
  destruct (swap_loop (matd_variables _) a b _) as [m|] eqn:Em; [|done].
  destruct (swap_loop (int_variables _) a b _) as [i|] eqn:Ei; [|done].
  simpl. intros [= <-] T ti Hti p. destruct Hti; simpl.
  - by apply (swap_loop_Permutation a b _ _ _ Er).
  - by apply (swap_loop_Permutation a b _ _ _ Ev).
  - by apply (swap_loop_Permutation a b _ _ _ Em).
  - by apply (swap_loop_Permutation a b _ _ _ Ei).
Qed.

(** X4.  On a store of [N] particles, two swaps on four different indices
    below [N] can be done in either order: the resulting stores are the
    same. *)
Theorem swap_disjoint_commute N st a b c d :
  store_ok N st → a < N → b < N → c < N → d < N →
  a ≠ c → a ≠ d → b ≠ c → b ≠ d →
  apply_operation swap_particle_data_value (a, b) st
    ≫= apply_operation swap_particle_data_value (c, d)
  = apply_operation swap_particle_data_value (c, d) st
    ≫= apply_operation swap_particle_data_value (a, b).
Proof.
  intros Hok Ha Hb Hc Hd Hac Had Hbc Hbd.
  destruct (swap_spec N st a b Hok Ha Hb) as (s1 & -> & Hpd1 & Hok1 & _ & H1).
  destruct (swap_spec N st c d Hok Hc Hd) as (t1 & -> & Hpd1' & Hok1' & _ & H1').
  simpl.
  destruct (swap_spec N s1 c d Hok1 Hc Hd) as (s2 & -> & Hpd2 & _ & _ & H2).
  destruct (swap_spec N t1 a b Hok1' Ha Hb) as (t2 & -> & Hpd2' & _ & _ & H2').
  f_equal. apply store_ext; [congruence|]. intros T ti Hti.
  destruct (H1 T ti Hti) as [I1 O1]. destruct (H1' T ti Hti) as [I1' O1'].
  destruct (H2 T ti Hti) as [I2 O2]. destruct (H2' T ti Hti) as [I2' O2'].
  rewrite Hpd1 in I2, O2. rewrite Hpd1' in I2', O2'.
  apply map_eq. intros p.
  destruct (decide (p ∈ get_variables ti (particle_data st))) as [Hp|Hp];
    [|by rewrite O2, O1, O2', O1'].
  destruct (I1 p Hp) as (v & v1 & Ev & Ev1 & _ & A1 & B1 & R1).
  destruct (I1' p Hp) as (v_ & w1 & Ev_ & Ew1 & _ & C1 & D1 & S1).
  destruct (I2 p Hp) as (v1_ & v2 & Ev1_ & -> & L2 & C2 & D2 & R2).
  destruct (I2' p Hp) as (w1_ & w2 & Ew1_ & -> & M2 & A2 & B2 & S2).
  assert (v_ = v) as -> by congruence.
  assert (v1_ = v1) as -> by congruence.
  assert (w1_ = w1) as -> by congruence.
  f_equal. apply list_eq. intros i.
  destruct (decide (i = a)) as [->|Hia].
  { rewrite R2, A1, A2, S1 by done. done. }
  destruct (decide (i = b)) as [->|Hib].
  { rewrite R2, B1, B2, S1 by done. done. }
  destruct (decide (i = c)) as [->|Hic].
  { rewrite C2, R1, S2, C1 by done. done. }
  destruct (decide (i = d)) as [->|Hid].
  { rewrite D2, R1, S2, D1 by done. done. }
  rewrite R2, R1, S2, S1 by done. done.
Qed.

(** X5.  The subscripts are not checked.  On a store of [N] particles and
    with an index that is not below [N], the swap has no defined result as
    soon as one variable is registered; with no variable registered the
    loops do not run and the store is returned as it is. *)
Theorem swap_out_of_bounds N st a b :
  store_ok N st → N ≤ a ∨ N ≤ b →
  (no_variables (particle_data st) →
     apply_operation swap_particle_data_value (a, b) st = Some st) ∧
  (¬ no_variables (particle_data st) →
     apply_operation swap_particle_data_value (a, b) st = None).
Proof.
  intros (Hr & Hv & Hm & Hi) Hab. rewrite apply_swap_unfold. split.
  - intros (Er & Ev & Em & Ei). rewrite Er, Ev, Em, Ei. simpl.
    destruct st as [pd [? ? ? ?]]. done.
  - intros Hne.
    destruct (real_variables (particle_data st)) as [|p0 l0] eqn:Er.
    2:{ by rewrite (swap_loop_out_of_bounds N a b _ _ Hr Hab). }
    simpl.
    destruct (vecd_variables (particle_data st)) as [|p1 l1] eqn:Ev.
    2:{ by rewrite (swap_loop_out_of_bounds N a b _ _ Hv Hab). }
    simpl.
    destruct (matd_variables (particle_data st)) as [|p2 l2] eqn:Em.
    2:{ by rewrite (swap_loop_out_of_bounds N a b _ _ Hm Hab). }
    simpl.
    destruct (int_variables (particle_data st)) as [|p3 l3] eqn:Ei.
    2:{ by rewrite (swap_loop_out_of_bounds N a b _ _ Hi Hab). }
    destruct Hne. done.
Qed.

(** X6.  The pointers are not checked either: when a pointer vector holds
    a pointer that refers to no array, the swap has no defined result,
    whatever the indices. *)
Theorem swap_needs_allocated st a b T (ti : ParticleDataTypeIndex T) p :
  type_index T ti →
  p ∈ get_variables ti (particle_data st) →
  get_arrays ti (memory st) !! p = None →
  apply_operation swap_particle_data_value (a, b) st = None.
Proof.
  intros Hti Hp Hnone. rewrite apply_swap_unfold.
  destruct Hti; simpl in *.
  - by rewrite (swap_loop_dangling a b _ p Hp _ Hnone).
  - destruct (swap_loop (real_variables _) a b _); simpl; [|done].
    by rewrite (swap_loop_dangling a b _ p Hp _ Hnone).
  - destruct (swap_loop (real_variables _) a b _); simpl; [|done].
    destruct (swap_loop (vecd_variables _) a b _); simpl; [|done].
    by rewrite (swap_loop_dangling a b _ p Hp _ Hnone).
  - destruct (swap_loop (real_variables _) a b _); simpl; [|done].
    destruct (swap_loop (vecd_variables _) a b _); simpl; [|done].
    destruct (swap_loop (matd_variables _) a b _); simpl; [|done].
    by rewrite (swap_loop_dangling a b _ p Hp _ Hnone).
Qed.
End FurtherSwapProofs.

(** ** More on [loopParticleDataMap] and [loopVariableNameList] *)

(** The order of [std::string]: [String.leb] is transitive. *)
Lemma string_compare_trans (s1 : string) :
  ∀ s2 s3, String.compare s1 s2 ≠ Gt → String.compare s2 s3 ≠ Gt →
           String.compare s1 s3 ≠ Gt.
Proof.
  induction s1 as [|c1 s1 IH]; intros [|c2 s2] [|c3 s3]; simpl; try done.
  unfold Ascii.compare.
  destruct (N.compare_spec (Ascii.N_of_ascii c1) (Ascii.N_of_ascii c2)),
           (N.compare_spec (Ascii.N_of_ascii c2) (Ascii.N_of_ascii c3)),
           (N.compare_spec (Ascii.N_of_ascii c1) (Ascii.N_of_ascii c3));
    try lia; try done.
  apply IH.
Qed.

#[global] Instance name_le_trans : Transitive name_le.
Proof.
  intros x y z. unfold name_le, String.leb.
  pose proof (string_compare_trans x.1 y.1 z.1) as H.
  destruct (String.compare x.1 y.1), (String.compare y.1 z.1),
           (String.compare x.1 z.1); try done; intros _ _; by destruct H.
Qed.

#[global] Instance name_le_total : Total name_le.
Proof. intros x y. apply String.leb_total. Qed.

Lemma string_leb_ltb (s1 s2 : string) :
  String.leb s1 s2 = true → s1 ≠ s2 → String.ltb s1 s2 = true.
Proof.
  unfold String.leb, String.ltb.
  destruct (String.compare s1 s2) eqn:E; try done.
  intros _ Hne. by apply String.compare_eq_iff in E.
Qed.

Lemma map_entries_sorted (m : gmap string nat) :
  StronglySorted (λ x y : string * nat, String.ltb x.1 y.1 = true) (map_entries m).
Proof.
  pose proof (NoDup_map_entries_names m) as Hnd.
  assert (StronglySorted name_le (map_entries m)) as Hs
    by (unfold map_entries; apply StronglySorted_merge_sort; apply _).
  induction Hs as [|x l Hs IH Hall]; [constructor|].
  simpl in Hnd. apply NoDup_cons in Hnd as [Hx Hnd].
  constructor; [by apply IH|].
  rewrite Forall_forall in *. intros y Hy. apply string_leb_ltb.
  - by apply Hall.
  - intros Heq. apply Hx. rewrite Heq. apply list_elem_of_fmap. eauto.
Qed.

Section FurtherLoopProofs.
Context {Real Vecd Matd : Type}.
Local Abbreviation Store := (@Store Real Vecd Matd).
Local Abbreviation ParticleDataTypeIndex := (@ParticleDataTypeIndex Real Vecd Matd).
Local Abbreviation VariableOperation := (@VariableOperation Real Vecd Matd).

Lemma visit_all_keeps {T V} (ti : ParticleDataTypeIndex T)
    (vo : VariableOperation V) entries :
  type_index T ti →
  ∀ w w' : Store * V,
  visit_all ti vo entries w = Some w' →
  particle_data w'.1 = particle_data w.1 ∧
  allocated (memory w'.1) = allocated (memory w.1).
Proof.
  intros Hti. induction entries as [|e entries IH]; intros w w'; simpl.
  - by intros [= <-].
  - destruct (visit_variable ti vo e w) as [w1|] eqn:E1; [|done]. simpl.
    intros Hrun. destruct (visit_variable_keeps ti vo e w w1 Hti E1) as [? ?].
    destruct (IH w1 w' Hrun) as [? ?]. split; congruence.
Qed.

Lemma visit_all_bad_index {T V} (ti : ParticleDataTypeIndex T)
    (vo : VariableOperation V) entries name i :
  type_index T ti → (name, i) ∈ entries →
  ∀ w : Store * V,
  length (get_variables ti (particle_data w.1)) ≤ i →
  visit_all ti vo entries w = None.
Proof.
  intros Hti. induction entries as [|e entries IH]; intros Hin w Hlen.
  - by apply elem_of_nil in Hin.
  - simpl. apply elem_of_cons in Hin as [<-|Hin].
    + unfold visit_variable. simpl.
      by rewrite (lookup_ge_None_2 _ _ Hlen).
    + destruct (visit_variable ti vo e w) as [w1|] eqn:E1; [|done]. simpl.
      apply IH; [done|].
      destruct (visit_variable_keeps ti vo e w w1 Hti E1) as [-> _]. done.
Qed.

Lemma store_array_id {T} (ti : ParticleDataTypeIndex T) (st : Store) p variable :
  type_index T ti →
  get_arrays ti (memory st) !! p = Some variable →
  store_array ti p variable st = st.
Proof.
  intros Hti Hp. unfold store_array. rewrite (insert_id _ _ _ Hp).
  destruct st as [pd [? ? ? ?]]. by destruct Hti.
Qed.

Lemma call_only_looks {T V} (ti : ParticleDataTypeIndex T)
    (vo : VariableOperation V) name variable v r :
  type_index T ti → only_looks vo →
  call ti vo name variable v = Some r → r.1 = variable.
Proof. intros Hti (Hr & Hv & Hm & Hi). destruct Hti; simpl; eauto. Qed.

Lemma visit_all_only_looks {T V} (ti : ParticleDataTypeIndex T)
    (vo : VariableOperation V) entries :
  type_index T ti → only_looks vo →
  ∀ w w' : Store * V, visit_all ti vo entries w = Some w' → w'.1 = w.1.
Proof.
  intros Hti Hvo. induction entries as [|e entries IH]; intros w w'; simpl.
  - by intros [= <-].
  - unfold visit_variable at 1.
    destruct (get_variables ti _ !! _) as [p|]; [|done]. simpl.
    destruct (get_arrays ti (memory w.1) !! p) as [variable|] eqn:Hp; [|done].
    simpl. destruct (call ti vo _ _ _) as [r|] eqn:Hc; [|done]. simpl.
    intros Hrun. rewrite (IH _ _ Hrun). simpl.
    rewrite (call_only_looks ti vo _ _ _ _ Hti Hvo Hc).
    by apply store_array_id.
Qed.

Lemma visited_tags_sorted (c : Category) (m : gmap string nat) :
  StronglySorted visit_lt ((λ e : string * nat, (c, e.1)) <$> map_entries m).
Proof.
  eapply StronglySorted_fmap; [|apply map_entries_sorted].
  intros x y Hlt. right. done.
Qed.

(** X7.  Going through the data maps meets the variables category by
    category and, within a category, in increasing order of their names
    (the order of the [std::map] keys), whatever their positions in the
    pointer vector: the visits noted by a recording operation are strictly
    increasing. *)
Theorem loop_visits_in_name_order {V} (m : ParticleDataMap)
    (vo : VariableOperation V) (st st' : Store) (v v' : V)
    (log : list (Category * string)) :
  apply_operation loop_particle_data_map (m, recorded vo) (st, (v, []))
    = Some (st', (v', log)) →
  StronglySorted visit_lt log.
Proof.
  rewrite recorded_dispatch.
  destruct (apply_operation loop_particle_data_map (m, vo) (st, v)); [|done].
  simpl. intros [= _ _ <-]. rewrite manual_iteration_unfold.
  repeat (apply StronglySorted_app_2; [|apply visited_tags_sorted|]);
    try apply visited_tags_sorted;
    intros [c1 n1] [c2 n2]; rewrite ?elem_of_app, !elem_of_tagged_entries;
    unfold visit_lt; simpl; intros [-> _] H; left;
    repeat (destruct H as [[-> _]|H]); try destruct H as [-> _]; simpl; lia.
Qed.

(** X8.  A variable operation that hands every array back as it found it
    leaves the whole store as it was, in either mode of iteration. *)
Theorem looking_leaves_store {V} (vo : VariableOperation V) :
  only_looks vo →
  (∀ m (st st' : Store) v v',
     apply_operation loop_particle_data_map (m, vo) (st, v) = Some (st', v') →
     st' = st) ∧
  (∀ l (st st' : Store) v v',
     apply_operation loop_variable_name_list (l, vo) (st, v) = Some (st', v') →
     st' = st).
Proof.
  intros Hvo. split.
  - intros m st st' v v'.
    unfold apply_operation, loop_particle_data_map, instantiate,
      loopParticleDataMap. simpl.
    destruct (visit_all real_index vo _ _) as [w1|] eqn:E1; [|done]. simpl.
    destruct (visit_all vecd_index vo _ _) as [w2|] eqn:E2; [|done]. simpl.
    destruct (visit_all matd_index vo _ _) as [w3|] eqn:E3; [|done]. simpl.
    intros E4.
    apply (visit_all_only_looks real_index vo _ type_index_real Hvo) in E1.
    apply (visit_all_only_looks vecd_index vo _ type_index_vecd Hvo) in E2.
    apply (visit_all_only_looks matd_index vo _ type_index_matd Hvo) in E3.
    apply (visit_all_only_looks int_index vo _ type_index_int Hvo) in E4.
    simpl in *. congruence.
  - intros l st st' v v'.
    unfold apply_operation, loop_variable_name_list, instantiate,
      loopVariableNameList. simpl.
    destruct (visit_all real_index vo _ _) as [w1|] eqn:E1; [|done]. simpl.
    destruct (visit_all vecd_index vo _ _) as [w2|] eqn:E2; [|done]. simpl.
    destruct (visit_all matd_index vo _ _) as [w3|] eqn:E3; [|done]. simpl.
    intros E4.
    apply (visit_all_only_looks real_index vo _ type_index_real Hvo) in E1.
    apply (visit_all_only_looks vecd_index vo _ type_index_vecd Hvo) in E2.
    apply (visit_all_only_looks matd_index vo _ type_index_matd Hvo) in E3.
    apply (visit_all_only_looks int_index vo _ type_index_int Hvo) in E4.
    simpl in *. congruence.
Qed.

Lemma list_in_store_transport {T V} (ti : ParticleDataTypeIndex T)
    (l : ParticleVariableList) (st : Store) (w : Store * V) :
  type_index T ti → list_in_store ti l st →
  particle_data w.1 = particle_data st →
  allocated (memory w.1) = allocated (memory st) →
  Forall (λ e : string * nat,
            is_Some (p ← get_variables ti (particle_data w.1) !! e.2;
                     get_arrays ti (memory w.1) !! p))
         (get_list ti l).
Proof.
  intros Hti Hin Hpd Hal. eapply Forall_impl; [exact Hin|].
  intros e He. simpl in *. rewrite Hpd.
  destruct (get_variables ti (particle_data st) !! e.2) as [p|];
    [|by apply is_Some_None in He]. simpl in *.
  unfold allocated in Hal.
  destruct Hti; simpl in *; apply elem_of_dom; apply elem_of_dom in He;
    congruence.
Qed.

Lemma listed_names_unfold (l : ParticleVariableList) :
  listed_names l =
  ((λ e : string * nat, (Scalar, e.1)) <$> real_list l) ++
  ((λ e : string * nat, (Vector, e.1)) <$> vecd_list l) ++
  ((λ e : string * nat, (Tensor, e.1)) <$> matd_list l) ++
  ((λ e : string * nat, (Integer, e.1)) <$> int_list l).
Proof. unfold listed_names. simpl. by rewrite app_nil_r. Qed.

(** X9.  Neither loop checks the positions it is given.  When the data map
    (or the name list) of a category holds a position past the end of that
    category's pointer vector, the iteration through the dispatcher has no
    defined result, whatever the variable operation. *)
Theorem loops_need_valid_index {T V} (ti : ParticleDataTypeIndex T)
    (vo : VariableOperation V) (st : Store) (v : V) (name : string) (i : nat) :
  type_index T ti →
  length (get_variables ti (particle_data st)) ≤ i →
  (∀ m, get_map ti m !! name = Some i →
     apply_operation loop_particle_data_map (m, vo) (st, v) = None) ∧
  (∀ l, (name, i) ∈ get_list ti l →
     apply_operation loop_variable_name_list (l, vo) (st, v) = None).
Proof.
  intros Hti Hlen.
  assert (∀ (entries : ∀ U, ParticleDataTypeIndex U → list (string * nat)),
            (name, i) ∈ entries T ti →
            (w1 ← visit_all real_index vo (entries _ real_index) (st, v);
             w2 ← visit_all vecd_index vo (entries _ vecd_index) w1;
             w3 ← visit_all matd_index vo (entries _ matd_index) w2;
             visit_all int_index vo (entries _ int_index) w3) = None) as Hgen.
  { intros entries Hin. destruct Hti.
    - by rewrite (visit_all_bad_index real_index vo _ name i type_index_real Hin).
    - destruct (visit_all real_index vo _ _) as [w1|] eqn:E1; [|done]. simpl.
      apply (visit_all_keeps _ _ _ type_index_real) in E1 as [P1 _].
      rewrite (visit_all_bad_index vecd_index vo _ name i type_index_vecd Hin);
        [done|]. simpl in *. by rewrite P1.
    - destruct (visit_all real_index vo _ _) as [w1|] eqn:E1; [|done]. simpl.
      apply (visit_all_keeps _ _ _ type_index_real) in E1 as [P1 _].
      destruct (visit_all vecd_index vo _ _) as [w2|] eqn:E2; [|done]. simpl.
      apply (visit_all_keeps _ _ _ type_index_vecd) in E2 as [P2 _].
      rewrite (visit_all_bad_index matd_index vo _ name i type_index_matd Hin);
        [done|]. simpl in *. by rewrite P2, P1.
    - destruct (visit_all real_index vo _ _) as [w1|] eqn:E1; [|done]. simpl.
      apply (visit_all_keeps _ _ _ type_index_real) in E1 as [P1 _].
      destruct (visit_all vecd_index vo _ _) as [w2|] eqn:E2; [|done]. simpl.
      apply (visit_all_keeps _ _ _ type_index_vecd) in E2 as [P2 _].
      destruct (visit_all matd_index vo _ _) as [w3|] eqn:E3; [|done]. simpl.
      apply (visit_all_keeps _ _ _ type_index_matd) in E3 as [P3 _].
      rewrite (visit_all_bad_index int_index vo _ name i type_index_int Hin);
        [done|]. simpl in *. by rewrite P3, P2, P1. }
  split.
  - intros m Hm.
    apply (Hgen (λ U tu, map_entries (get_map tu m))).
    by apply elem_of_map_entries.
  - intros l Hl. apply (Hgen (λ U tu, get_list tu l)). done.
Qed.

Lemma recorded_list_dispatch {V} (l : ParticleVariableList)
    (vo : VariableOperation V) (st : Store) (v : V)
    (log : list (Category * string)) :
  apply_operation loop_variable_name_list (l, recorded vo) (st, (v, log))
  = (λ w, (w.1, (w.2, log ++ listed_names l)))
      <$> apply_operation loop_variable_name_list (l, vo) (st, v).
Proof.
  rewrite listed_names_unfold.
  unfold apply_operation, loop_variable_name_list, instantiate,
    loopVariableNameList. simpl.
  rewrite (visit_all_recorded real_index vo _ type_index_real).
  destruct (visit_all real_index vo _ _) as [[st1 v1]|]; [|done]. simpl.
  rewrite (visit_all_recorded vecd_index vo _ type_index_vecd).
  destruct (visit_all vecd_index vo _ _) as [[st2 v2]|]; [|done]. simpl.
  rewrite (visit_all_recorded matd_index vo _ type_index_matd).
  destruct (visit_all matd_index vo _ _) as [[st3 v3]|]; [|done]. simpl.
  rewrite (visit_all_recorded int_index vo _ type_index_int).
  destruct (visit_all int_index vo _ _) as [[st4 v4]|]; [|done]. simpl.
  by rewrite <- !app_assoc.
Qed.

(** X10.  On a store that the name lists belong to, and for a variable
    operation that returns normally, going through the name lists by the
    dispatcher completes, and the variables the operation is applied to are
    exactly those the lists name, category by category and in the order of
    each list, a name written twice being visited twice. *)
Theorem list_loop_visits_listed {V} (l : ParticleVariableList)
    (vo : VariableOperation V) (st : Store) (v : V)
    (log : list (Category * string)) :
  lists_in_store l st → returns_normally vo →
  ∃ st' v',
    apply_operation loop_variable_name_list (l, vo) (st, v) = Some (st', v') ∧
    apply_operation loop_variable_name_list (l, recorded vo) (st, (v, log))
      = Some (st', (v', log ++ listed_names l)).
Proof.
  intros (Hr & Hv & Hm & Hi) Hvo.
  assert (∃ w', apply_operation loop_variable_name_list (l, vo) (st, v) = Some w')
    as [[st' v'] Hrun].
  { unfold apply_operation, loop_variable_name_list, instantiate,
      loopVariableNameList. simpl.
    destruct (visit_all_total real_index vo (real_list l)
                type_index_real Hvo (st, v)) as (w1 & -> & Hpd1 & Hal1).
    { by apply (list_in_store_transport real_index l st (st, v) type_index_real). }
    simpl in *.
    destruct (visit_all_total vecd_index vo (vecd_list l)
                type_index_vecd Hvo w1) as (w2 & -> & Hpd2 & Hal2).
    { by apply (list_in_store_transport vecd_index l st w1 type_index_vecd). }
    simpl.
    destruct (visit_all_total matd_index vo (matd_list l)
                type_index_matd Hvo w2) as (w3 & -> & Hpd3 & Hal3).
    { apply (list_in_store_transport matd_index l st w2 type_index_matd);
        [done|congruence..]. }
    simpl.
    destruct (visit_all_total int_index vo (int_list l)
                type_index_int Hvo w3) as (w4 & -> & Hpd4 & Hal4).
    { apply (list_in_store_transport int_index l st w3 type_index_int);
        [done|congruence..]. }
    eauto. }
  exists st', v'. split; [done|].
  rewrite recorded_list_dispatch, Hrun. done.
Qed.

Lemma get_store_array_same {T} (ti : ParticleDataTypeIndex T) (st : Store) p x :
  type_index T ti →
  get_arrays ti (memory (store_array ti p x st))
  = <[p:=x]> (get_arrays ti (memory st)).
Proof. intros Hti. by destruct Hti. Qed.

Lemma get_store_array_other {T U} (ti : ParticleDataTypeIndex T)
    (tj : ParticleDataTypeIndex U) (st : Store) p x :
  type_index T ti → type_index U tj → category tj ≠ category ti →
  get_arrays tj (memory (store_array ti p x st)) = get_arrays tj (memory st).
Proof. intros Hti Htj Hne. by destruct Hti, Htj. Qed.

Lemma NoDup_map_entries_indices (m : gmap string nat) :
  map_injective m → NoDup ((map_entries m).*2).
Proof.
  intros Hinj. unfold map_entries. rewrite merge_sort_Permutation.
  apply NoDup_fmap_2_strong; [|apply NoDup_map_to_list].
  intros [n1 i1] [n2 i2] H1 H2. simpl. intros <-.
  apply elem_of_map_to_list in H1, H2. f_equal. by eapply Hinj.
Qed.

(** One category gone through with an operation that keeps no state of
    its own: every array a listed position points at is replaced by what
    the operation makes of it, and nothing else changes. *)
Lemma visit_all_applies {T} (ti : ParticleDataTypeIndex T)
    (vo : VariableOperation unit) (entries : list (string * nat)) :
  type_index T ti → returns_normally vo →
  ∀ st : Store,
  NoDup (get_variables ti (particle_data st)) →
  NoDup (entries.*2) →
  Forall (λ e : string * nat,
            is_Some (p ← get_variables ti (particle_data st) !! e.2;
                     get_arrays ti (memory st) !! p)) entries →
  ∃ st',
    visit_all ti vo entries (st, tt) = Some (st', tt) ∧
    particle_data st' = particle_data st ∧
    (∀ U (tj : ParticleDataTypeIndex U), type_index U tj →
       category tj ≠ category ti →
       get_arrays tj (memory st') = get_arrays tj (memory st)) ∧
    (∀ name i p, (name, i) ∈ entries →
       get_variables ti (particle_data st) !! i = Some p →
       ∃ variable variable',
         get_arrays ti (memory st) !! p = Some variable ∧
         call ti vo name variable tt = Some (variable', tt) ∧
         get_arrays ti (memory st') !! p = Some variable') ∧
    (∀ p, (∀ name i, (name, i) ∈ entries →
             get_variables ti (particle_data st) !! i ≠ Some p) →
       get_arrays ti (memory st') !! p = get_arrays ti (memory st) !! p).
Proof.
  intros Hti Hvo.
  induction entries as [|[n i] entries IH]; intros st Hnd Hni Hall.
  - exists st. repeat split; try done.
    intros name i p Hin. by apply elem_of_nil in Hin.
  - simpl in Hni. apply NoDup_cons in Hni as [Hi Hni].
    apply Forall_cons in Hall as [He Hall]. simpl in He.
    destruct (get_variables ti (particle_data st) !! i) as [p|] eqn:Hp;
      [|by apply is_Some_None in He]. simpl in He.
    destruct He as [variable Hvar].
    assert (∃ variable', call ti vo n variable tt = Some (variable', tt))
      as [variable' Hcall].
    { destruct Hvo as (Hr & Hv & Hm & Hz).
      destruct Hti; simpl;
        [destruct (Hr n variable tt) as [[x []] ->]
        |destruct (Hv n variable tt) as [[x []] ->]
        |destruct (Hm n variable tt) as [[x []] ->]
        |destruct (Hz n variable tt) as [[x []] ->]]; eauto. }
    set (st1 := store_array ti p variable' st).
    assert (visit_variable ti vo (n, i) (st, tt) = Some (st1, tt)) as Hstep.
    { unfold visit_variable. simpl. rewrite Hp. simpl. rewrite Hvar. simpl.
      rewrite Hcall. done. }
    assert (get_arrays ti (memory st1) = <[p:=variable']> (get_arrays ti (memory st)))
      as Hsame by (by apply get_store_array_same).
    assert (particle_data st1 = particle_data st) as Hpd1 by done.
    assert (∀ U (tj : ParticleDataTypeIndex U), type_index U tj →
              category tj ≠ category ti →
              get_arrays tj (memory st1) = get_arrays tj (memory st)) as Hframe1
      by (intros U tj Htj Hne; by apply get_store_array_other).
    clearbody st1.
    assert (∀ n' i' q, (n', i') ∈ entries →
              get_variables ti (particle_data st) !! i' = Some q → q ≠ p)
      as Hother.
    { intros n' i' q Hin Hq ->. apply Hi.
      rewrite (NoDup_lookup _ _ _ _ Hnd Hp Hq).
      apply list_elem_of_fmap. by exists (n', i'). }
    destruct (IH st1) as (st' & Hrun & Hpd & Hframe & Hin & Hout).
    { by rewrite Hpd1. }
    { done. }
    { rewrite Forall_forall in *. intros [n' i'] Hin'.
      specialize (Hall _ Hin'). simpl in *. rewrite Hpd1.
      destruct (get_variables ti (particle_data st) !! i') as [q|] eqn:Hq;
        [|by apply is_Some_None in Hall]. simpl in *.
      rewrite Hsame, lookup_insert_ne; [done|].
      intros Heq. by apply (Hother n' i' q Hin' Hq). }
    rewrite Hpd1 in Hin, Hout.
    exists st'. split; [|split; [|split; [|split]]].
    + simpl. rewrite Hstep. done.
    + by rewrite Hpd.
    + intros U tj Htj Hne. rewrite (Hframe U tj Htj Hne). by apply Hframe1.
    + intros name i0 p0 Hin0 Hp0.
      apply elem_of_cons in Hin0 as [[= -> ->]|Hin0].
      * assert (p0 = p) as -> by congruence.
        exists variable, variable'. split; [done|]. split; [done|].
        rewrite Hout; [by rewrite Hsame, lookup_insert_eq|].
        intros n' i' Hin' Hq. by apply (Hother n' i' p Hin' Hq).
      * destruct (Hin name i0 p0 Hin0 Hp0) as (w & w' & Hw & Hc & Hw').
        exists w, w'. split; [|done].
        rewrite Hsame, lookup_insert_ne in Hw; [done|].
        intros Heq. by apply (Hother name i0 p0 Hin0 Hp0).
    + intros p0 Hp0. rewrite Hout.
      * rewrite Hsame, lookup_insert_ne; [done|].
        intros Heq. apply (Hp0 n i); [by left|by rewrite <- Heq].
      * intros n' i' Hin'. apply (Hp0 n' i'). by right.
Qed.

Lemma entries_valid_transport {T} (ti : ParticleDataTypeIndex T)
    (entries : list (string * nat)) (st st1 : Store) :
  particle_data st1 = particle_data st →
  get_arrays ti (memory st1) = get_arrays ti (memory st) →
  Forall (λ e : string * nat,
            is_Some (p ← get_variables ti (particle_data st) !! e.2;
                     get_arrays ti (memory st) !! p)) entries →
  Forall (λ e : string * nat,
            is_Some (p ← get_variables ti (particle_data st1) !! e.2;
                     get_arrays ti (memory st1) !! p)) entries.
Proof. intros -> ->. done. Qed.

Lemma map_entries_valid {T} (ti : ParticleDataTypeIndex T)
    (m : ParticleDataMap) (st : Store) :
  map_in_store ti m st →
  Forall (λ e : string * nat,
            is_Some (p ← get_variables ti (particle_data st) !! e.2;
                     get_arrays ti (memory st) !! p))
         (map_entries (get_map ti m)).
Proof.
  intros Hin. apply Forall_forall. intros [name i] He.
  apply elem_of_map_entries in He. exact (Hin name i He).
Qed.

(** X11.  On a store whose pointer vectors hold no pointer twice, with
    data maps that belong to the store and give distinct names distinct
    positions, going through the data maps with a variable operation that
    keeps no state and returns normally replaces the array of every
    registered variable by what the operation makes of it under that
    variable's name, once, and leaves the pointer vectors and every other
    array as they were. *)
Theorem loop_applies_operation (m : ParticleDataMap)
    (vo : VariableOperation unit) (st : Store) :
  no_aliasing (particle_data st) → maps_injective m →
  maps_in_store m st → returns_normally vo →
  ∃ st',
    apply_operation loop_particle_data_map (m, vo) (st, tt) = Some (st', tt) ∧
    particle_data st' = particle_data st ∧
    ∀ T (ti : ParticleDataTypeIndex T), type_index T ti →
      (∀ name i p, get_map ti m !! name = Some i →
         get_variables ti (particle_data st) !! i = Some p →
         ∃ variable variable',
           get_arrays ti (memory st) !! p = Some variable ∧
           call ti vo name variable tt = Some (variable', tt) ∧
           get_arrays ti (memory st') !! p = Some variable') ∧
      (∀ p, (∀ name i, get_map ti m !! name = Some i →
               get_variables ti (particle_data st) !! i ≠ Some p) →
         get_arrays ti (memory st') !! p = get_arrays ti (memory st) !! p).
Proof.
  intros (Nr & Nv & Nm & Ni) (Ir & Iv & Im & Ii) (Mr & Mv & Mm & Mi) Hvo.
  destruct (visit_all_applies real_index vo (map_entries (real_map m))
              type_index_real Hvo st Nr (NoDup_map_entries_indices _ Ir)
              (map_entries_valid real_index m st Mr))
    as (st1 & R1 & P1 & F1 & A1 & U1).
  pose proof (F1 _ _ type_index_vecd ltac:(done)) as F1v.
  pose proof (F1 _ _ type_index_matd ltac:(done)) as F1m.
  pose proof (F1 _ _ type_index_int ltac:(done)) as F1i.
  destruct (visit_all_applies vecd_index vo (map_entries (vecd_map m))
              type_index_vecd Hvo st1) as (st2 & R2 & P2 & F2 & A2 & U2).
  { by rewrite P1. }
  { by apply NoDup_map_entries_indices. }
  { apply (entries_valid_transport vecd_index _ st st1 P1 F1v).
    by apply (map_entries_valid vecd_index). }
  pose proof (F2 _ _ type_index_real ltac:(done)) as F2r.
  pose proof (F2 _ _ type_index_matd ltac:(done)) as F2m.
  pose proof (F2 _ _ type_index_int ltac:(done)) as F2i.
  destruct (visit_all_applies matd_index vo (map_entries (matd_map m))
              type_index_matd Hvo st2) as (st3 & R3 & P3 & F3 & A3 & U3).
  { by rewrite P2, P1. }
  { by apply NoDup_map_entries_indices. }
  { apply (entries_valid_transport matd_index _ st st2); [congruence..|].
    by apply (map_entries_valid matd_index). }
  pose proof (F3 _ _ type_index_real ltac:(done)) as F3r.
  pose proof (F3 _ _ type_index_vecd ltac:(done)) as F3v.
  pose proof (F3 _ _ type_index_int ltac:(done)) as F3i.
  destruct (visit_all_applies int_index vo (map_entries (int_map m))
              type_index_int Hvo st3) as (st4 & R4 & P4 & F4 & A4 & U4).
  { by rewrite P3, P2, P1. }
  { by apply NoDup_map_entries_indices. }
  { apply (entries_valid_transport int_index _ st st3); [congruence..|].
    by apply (map_entries_valid int_index). }
  pose proof (F4 _ _ type_index_real ltac:(done)) as F4r.
  pose proof (F4 _ _ type_index_vecd ltac:(done)) as F4v.
  pose proof (F4 _ _ type_index_matd ltac:(done)) as F4m.
  exists st4. split; [|split; [congruence|]].
  { unfold apply_operation, loop_particle_data_map, instantiate,
      loopParticleDataMap. simpl in *.
    rewrite R1. simpl. rewrite R2. simpl. rewrite R3. simpl. exact R4. }
  simpl in *.
  intros T ti Hti. destruct Hti; simpl in *.
  - rewrite F4r, F3r, F2r. split.
    + intros name i p Hm. apply A1. by apply elem_of_map_entries.
    + intros p Hp. apply U1. intros name i Hin.
      apply (Hp name i). by apply elem_of_map_entries.
  - rewrite F4v, F3v, <- F1v. rewrite <- P1. split.
    + intros name i p Hm. apply A2. by apply elem_of_map_entries.
    + intros p Hp. apply U2. intros name i Hin.
      apply (Hp name i). by apply elem_of_map_entries.
  - rewrite F4m, <- F1m, <- F2m. rewrite <- P1, <- P2. split.
    + intros name i p Hm. apply A3. by apply elem_of_map_entries.
    + intros p Hp. apply U3. intros name i Hin.
      apply (Hp name i). by apply elem_of_map_entries.
  - rewrite <- F1i, <- F2i, <- F3i. rewrite <- P1, <- P2, <- P3. split.
    + intros name i p Hm. apply A4. by apply elem_of_map_entries.
    + intros p Hp. apply U4. intros name i Hin.
      apply (Hp name i). by apply elem_of_map_entries.
Qed.
End FurtherLoopProofs.

(** ** More on the time-stepping control *)

Section FurtherSchedulerProofs.
Context {Real : Type} {arith : RealArith Real}.
Local Abbreviation State := (State Real).
Local Abbreviation Event := (Event Real).
Local Abbreviation Estimators := (Estimators Real).
Implicit Types (s : State) (est : Estimators) (tr : list Event).

Lemma run_add est (k n : nat) s :
  run est (k + n) s = run est k (run est n s).
Proof. induction k as [|k IH]; simpl; [done|]. by rewrite IH. Qed.

Lemma output_events_silent s :
  omap advection_query (output_events s) = [] ∧
  omap acoustic_query (output_events s) = [] ∧
  omap relaxation_pass (output_events s) = [] ∧
  Forall (λ e, is_result_test e = false) (output_events s).
Proof.
  unfold output_events.
  destruct (_ =? 0)%Z; [|by repeat split].
  destruct (negb _ && _); destruct (_ =? 0)%Z;
    repeat split; by repeat constructor.
Qed.

Lemma output_events_due s : Forall output_due (output_events s).
Proof.
  unfold output_events.
  destruct (Z.eqb_spec (number_of_iterations s mod screen_output_interval) 0)
    as [H100|]; [|done].
  apply Forall_app. split; [by repeat constructor|].
  apply Forall_app. split.
  - destruct (Z.eqb_spec (number_of_iterations s) 0) as [|Hne]; simpl; [done|].
    destruct (Z.eqb_spec (number_of_iterations s mod observation_sample_interval) 0);
      [|done].
    by repeat constructor.
  - destruct (Z.eqb_spec (number_of_iterations s mod restart_output_interval) 0);
      [|done].
    by repeat constructor.
Qed.

(** X12.  At every point of every run from the initial state,
    [number_of_iterations] is the number of completed outer steps, counted
    modulo [2^64] as a [size_t] counts. *)
Theorem iterations_count_outer_steps est n :
  number_of_iterations (run est n initial_state)
  = (Z.of_nat (outer_steps_completed (run est n initial_state)) mod 2 ^ 64)%Z.
Proof.
  induction n as [|n IH]; [done|].
  pose proof (refreshes_completed est n) as [_ Hpos].
  simpl in *. set (s := run est n initial_state) in *.
  unfold step, outer_steps_completed in *. destruct (location s) eqn:Hl.
  - destruct (real_ltb (physical_time s) end_time); simpl; [done|].
    rewrite outer_steps_begun_app. simpl.
    by rewrite Nat.add_0_r.
  - destruct (real_ltb (integration_time s) output_interval); simpl;
      rewrite outer_steps_begun_app; simpl.
    + rewrite IH. f_equal. unfold outer_steps_begun. simpl. lia.
    + by rewrite Nat.add_0_r.
  - destruct (real_ltb (relaxation_time s) (Dt s)).
    + simpl. rewrite outer_steps_begun_app. simpl. by rewrite Nat.add_0_r.
    + cbn [end_outer_step trace location number_of_iterations].
      rewrite !outer_steps_begun_app.
      destruct (output_events_quiet s) as (_ & _ & ->).
      change (outer_steps_begun (map Refreshing refresh_sequence : list Event))
        with 0.
      specialize (Hpos eq_refl). unfold size_t_succ. rewrite IH.
      rewrite Zplus_mod_idemp_l. f_equal. lia.
  - by rewrite Hl.
Qed.


(** X14.  At every point of every run from the initial state, the
    relaxation passes made so far are, for each inner step applied and in
    the order of application, the pressure relaxation of the water, that of
    the air, the density relaxation of the water and that of the air, all
    four with that same step. *)
Theorem relaxation_passes_in_order est n :
  let s := run est n initial_state in
  omap relaxation_pass (trace s) = (d ← applied_dts (trace s); passes_of d).
Proof.
  cbv zeta. induction n as [|n IH]; [done|].
  simpl. set (s := run est n initial_state) in *.
  unfold step. destruct (location s).
  - destruct (real_ltb (physical_time s) end_time); simpl; [done|].
    rewrite applied_dts_app, !omap_app. simpl. by rewrite !app_nil_r.
  - destruct (real_ltb (integration_time s) output_interval); simpl;
      rewrite applied_dts_app, !omap_app; simpl; by rewrite !app_nil_r.
  - destruct (real_ltb (relaxation_time s) (Dt s)).
    + simpl. rewrite applied_dts_app, !omap_app, bind_app, IH. done.
    + cbn [end_outer_step trace].
      rewrite !applied_dts_app, !omap_app.
      destruct (output_events_quiet s) as (-> & _ & _).
      destruct (output_events_silent s) as (_ & _ & -> & _).
      simpl. by rewrite !app_nil_r.
  - done.
Qed.

(** X15.  At every point of every run from the initial state, every line
    written to the screen carries an iteration number that is a multiple of
    100, every observation written inside the loop carries a non-zero
    multiple of 200, and every restart file a multiple of 1000. *)
Theorem outputs_only_when_due est n :
  Forall output_due (trace (run est n initial_state)).
Proof.
  induction n as [|n IH]; [constructor|].
  simpl. set (s := run est n initial_state) in *.
  unfold step. destruct (location s).
  - destruct (real_ltb (physical_time s) end_time); simpl; [done|].
    apply Forall_app. split; [done|]. by repeat constructor.
  - destruct (real_ltb (integration_time s) output_interval); simpl;
      (apply Forall_app; split; [done|]); by repeat constructor.
  - destruct (real_ltb (relaxation_time s) (Dt s)); simpl.
    + apply Forall_app. split; [done|]. by repeat constructor.
    + apply Forall_app. split; [done|].
      apply Forall_app. split; [apply output_events_due|].
      by repeat constructor.
  - done.
Qed.

Lemma result_tests_invariant est n :
  let s := run est n initial_state in
  match location s with
  | AfterMainLoop =>
      real_ltb (physical_time s) end_time = false ∧
      ∃ tr, trace s = tr ++ [NewResultTest false; NewResultTest true] ∧
            Forall (λ e, is_result_test e = false) tr
  | _ => Forall (λ e, is_result_test e = false) (trace s)
  end.
Proof.
  cbv zeta. induction n as [|n IH]; [constructor|].
  cbn [run]. set (s := run est n initial_state) in *.
  unfold step. destruct (location s) eqn:Hl.
  - destruct (real_ltb (physical_time s) end_time) eqn:Hg; simpl; [done|].
    split; [done|]. by exists (trace s).
  - destruct (real_ltb (integration_time s) output_interval); simpl;
      (apply Forall_app; split; [done|]); by repeat constructor.
  - destruct (real_ltb (relaxation_time s) (Dt s)); simpl.
    + apply Forall_app. split; [done|]. by repeat constructor.
    + apply Forall_app. split; [done|].
      apply Forall_app. split; [apply output_events_silent|].
      by repeat constructor.
  - by rewrite Hl.
Qed.

Lemma after_main_loop_absorbing est s (k : nat) :
  location s = AfterMainLoop → run est k s = s.
Proof.
  intros Hl. induction k as [|k IH]; [done|].
  simpl. rewrite IH. unfold step. by rewrite Hl.
Qed.

(** X16.  The main loop has one way out.  At every point of every run
    from the initial state: while control has not left the main loop, no
    result test has been called; once it has, the test
    [physical_time_ < end_time] has failed on the physical time as it stands,
    the two result tests are the last calls made, and nothing happens any
    more. *)
Theorem main_loop_exit est n :
  let s := run est n initial_state in
  (location s ≠ AfterMainLoop →
     Forall (λ e, is_result_test e = false) (trace s)) ∧
  (location s = AfterMainLoop →
     real_ltb (physical_time s) end_time = false ∧
     (∃ tr, trace s = tr ++ [NewResultTest false; NewResultTest true] ∧
            Forall (λ e, is_result_test e = false) tr) ∧
     ∀ k, run est (k + n) initial_state = s).
Proof.
  intros s. pose proof (result_tests_invariant est n) as Hinv.
  fold s in Hinv. cbv zeta in Hinv. split.
  - intros Hl. by destruct (location s).
  - intros Hl. rewrite Hl in Hinv. destruct Hinv as [Hg Htr].
    split; [done|]. split; [done|].
    intros k. rewrite run_add. by apply after_main_loop_absorbing.
Qed.

(** *** The iterations of the acoustic loop *)

Lemma advanced_S est (D : Real) (c : nat) (x : Real) (j : nat) :
  advanced est D c x (S j)
  = real_add (advanced est D c x j) (inner_step est D (c + j)).
Proof.
  unfold advanced. by rewrite seq_S, fmap_app, fold_left_app.
Qed.

Lemma acoustic_iterations est s (j : nat) :
  location s = AtAcousticLoop →
  (∀ i, i < j →
     real_ltb (advanced est (Dt s) (acoustic_calls s) (relaxation_time s) i)
              (Dt s) = true) →
  location (run est j s) = AtAcousticLoop ∧
  Dt (run est j s) = Dt s ∧
  acoustic_calls (run est j s) = acoustic_calls s + j ∧
  relaxation_time (run est j s)
    = advanced est (Dt s) (acoustic_calls s) (relaxation_time s) j ∧
  integration_time (run est j s)
    = advanced est (Dt s) (acoustic_calls s) (integration_time s) j ∧
  physical_time (run est j s)
    = advanced est (Dt s) (acoustic_calls s) (physical_time s) j ∧
  applied_dts (trace (run est j s))
    = applied_dts (trace s)
      ++ (inner_step est (Dt s) <$> seq (acoustic_calls s) j).
Proof.
  intros Hl. induction j as [|j IH]; intros Hg.
  - simpl. rewrite Nat.add_0_r, app_nil_r. done.
  - destruct IH as (Lj & Dj & Cj & Rj & Ij & Pj & Aj);
      [intros i Hi; apply Hg; lia|].
    assert (real_ltb (relaxation_time (run est j s)) (Dt (run est j s)) = true)
      as Hgj by (rewrite Rj, Dj; apply Hg; lia).
    cbn [run]. rewrite (step_acoustic est _ Lj Hgj).
    cbn [acoustic_step location Dt acoustic_calls relaxation_time
         integration_time physical_time trace].
    rewrite !advanced_S, applied_dts_app, Aj, Rj, Ij, Pj, Dj, Cj.
    rewrite seq_S, fmap_app, <- app_assoc.
    repeat split; try done; lia.
Qed.

(** X17.  How many iterations the acoustic loop makes, in whatever
    arithmetic the code runs.  From a state at the test of the loop, as long
    as [relaxation_time] with the inner steps so far added to it, one after
    the other, is below [Dt], the loop goes on: after [j] passes the three
    clocks are what [j] times [+= dt] make of them, [Dt] is as it was, and
    [j] more pairs of estimates have been used.  The loop is left at the
    first [j] at which that sum is not below [Dt]. *)
Theorem acoustic_loop_iterations est s (j : nat) :
  location s = AtAcousticLoop →
  (∀ i, i < j →
     real_ltb (advanced est (Dt s) (acoustic_calls s) (relaxation_time s) i)
              (Dt s) = true) →
  let s' := run est j s in
  location s' = AtAcousticLoop ∧
  Dt s' = Dt s ∧
  acoustic_calls s' = acoustic_calls s + j ∧
  relaxation_time s'
    = advanced est (Dt s) (acoustic_calls s) (relaxation_time s) j ∧
  integration_time s'
    = advanced est (Dt s) (acoustic_calls s) (integration_time s) j ∧
  physical_time s'
    = advanced est (Dt s) (acoustic_calls s) (physical_time s) j ∧
  applied_dts (trace s')
    = applied_dts (trace s)
      ++ (inner_step est (Dt s) <$> seq (acoustic_calls s) j) ∧
  (real_ltb (advanced est (Dt s) (acoustic_calls s) (relaxation_time s) j)
            (Dt s) = false →
     location (step est s') = AtInnerLoop ∧
     relaxation_time (step est s') = relaxation_time s' ∧
     acoustic_calls (step est s') = acoustic_calls s + j).
Proof.
  intros Hl Hg s'. subst s'.
  destruct (acoustic_iterations est s j Hl Hg) as (Lj & Dj & Cj & Rj & Ij & Pj & Aj).
  repeat (split; [done|]). intros Hend.
  rewrite step_end_outer; [done|done|]. by rewrite Rj, Dj.
Qed.

(** X18.  The acoustic loop has no test of progress.  From a state in
    which [relaxation_time < Dt] holds, if adding any of the inner steps to
    come to [relaxation_time] gives [relaxation_time] back (a step of zero
    in any arithmetic; in binary64 also a positive step of less than half
    the distance to the next double), control stays in the loop for ever,
    with [relaxation_time] and [Dt] as they are, using one more pair of
    estimates at every pass. *)
Theorem absorbed_steps_never_end est s :
  location s = AtAcousticLoop →
  real_ltb (relaxation_time s) (Dt s) = true →
  (∀ k, acoustic_calls s ≤ k →
     real_add (relaxation_time s) (inner_step est (Dt s) k) = relaxation_time s) →
  ∀ n,
    location (run est n s) = AtAcousticLoop ∧
    relaxation_time (run est n s) = relaxation_time s ∧
    Dt (run est n s) = Dt s ∧
    acoustic_calls (run est n s) = acoustic_calls s + n.
Proof.
  intros Hl Hg Habs. induction n as [|n (Ln & Rn & Dn & Cn)].
  - simpl. by rewrite Nat.add_0_r.
  - cbn [run]. rewrite step_acoustic; [|done|by rewrite Rn, Dn].
    cbn [acoustic_step location relaxation_time Dt acoustic_calls].
    rewrite Rn, Dn, Cn. split; [done|].
    split; [apply (Habs (acoustic_calls s + n)); lia|].
    split; [done|lia].
Qed.
End FurtherSchedulerProofs.

(** ** Exact arithmetic *)

Lemma Q_ltb_true (x y : Q) : real_ltb x y = true ↔ (x < y)%Q.
Proof.
  simpl. rewrite negb_true_iff. split.
  - intros Hf. apply Qnot_le_lt. intros Hle.
    apply Qle_bool_iff in Hle. congruence.
  - intros Hlt. destruct (Qle_bool y x) eqn:E; [|done].
    apply Qle_bool_iff in E. lra.
Qed.

Lemma Q_add (x y : Q) : (real_add x y == x + y)%Q.
Proof. simpl. apply Qred_correct. Qed.

Lemma Q_SMIN (a b : Q) :
  (SMIN a b <= a)%Q ∧ (SMIN a b <= b)%Q ∧ (SMIN a b = a ∨ SMIN a b = b).
Proof.
  unfold SMIN. simpl. destruct (Qle_bool a b) eqn:E.
  - apply Qle_bool_iff in E. repeat split; auto; lra.
  - assert (¬ (a <= b)%Q) by (rewrite <- Qle_bool_iff; congruence).
    repeat split; auto; lra.
Qed.

(** X19.  In exact arithmetic, when the advection estimators return
    positive values and the smaller acoustic estimate is never positive, the
    simulation never ends: control enters the acoustic loop of the first
    outer step and stays there, and the physical time never rises above
    zero. *)
Theorem nonpositive_acoustic_steps_never_end (est : Estimators Q) :
  (∀ body k, (0 < advection_time_step_size est body k)%Q) →
  (∀ k, (SMIN (acoustic_time_step_size est Water k)
              (acoustic_time_step_size est Air k) <= 0)%Q) →
  ∀ n,
    location (run est n initial_state) ≠ AfterMainLoop ∧
    (physical_time (run est n initial_state) <= 0)%Q ∧
    (2 ≤ n → location (run est n initial_state) = AtAcousticLoop).
Proof.
  intros Hadv Hac.
  assert (∀ n, let s := run est (n + 2) initial_state in
               location s = AtAcousticLoop ∧ (relaxation_time s <= 0)%Q ∧
               (0 < Dt s)%Q ∧ (physical_time s <= 0)%Q) as Hinv.
  { induction n as [|n (Hl & Hr & HD & HT)].
    - simpl. repeat split; try done.
      destruct (Q_SMIN (advection_time_step_size est Water 0)
                       (advection_time_step_size est Air 0))
        as (_ & _ & [-> | ->]); apply Hadv.
    - cbn [Nat.add run] in *. set (s := run est (n + 2) initial_state) in *.
      assert (real_ltb (relaxation_time s) (Dt s) = true) as Hg
        by (apply Q_ltb_true; lra).
      rewrite (step_acoustic est s Hl Hg).
      cbn [acoustic_step location relaxation_time Dt physical_time].
      specialize (Hac (acoustic_calls s)).
      set (m := SMIN (acoustic_time_step_size est Water (acoustic_calls s))
                     (acoustic_time_step_size est Air (acoustic_calls s))) in *.
      destruct (Q_SMIN m (Dt s)) as (Hle & _ & _).
      set (d := SMIN m (Dt s)) in *.
      pose proof (Q_add (relaxation_time s) d).
      pose proof (Q_add (physical_time s) d).
      repeat split; try done; lra. }
  intros [|[|n]].
  - repeat split; try done. lia.
  - repeat split; try done. lia.
  - replace (S (S n)) with (n + 2) by lia.
    destruct (Hinv n) as (Hl & _ & _ & HT).
    split; [by rewrite Hl|]. split; [done|]. done.
Qed.

(** ** What rounding and NaN do to the loops *)

(** Rounding counts.  With an outer step of 0.8 and acoustic steps of 0.1,
    exact arithmetic leaves the acoustic loop after eight iterations, with
    [relaxation_time = 0.8]; in binary64 the eight steps add up to a value
    just below the double 0.8, and the loop makes a ninth. *)
Example rounding_adds_an_iteration :
  location (run tenth_estimates 11 initial_state) = AtInnerLoop ∧
  acoustic_calls (run tenth_estimates 11 initial_state) = 8 ∧
  relaxation_time (run tenth_estimates 11 initial_state) = real_lit 0.8 ∧
  acoustic_calls (run tenth_estimates_binary64 10 initial_state) = 8 ∧
  real_ltb (relaxation_time (run tenth_estimates_binary64 10 initial_state))
           (real_lit 0.8) = true ∧
  location (run tenth_estimates_binary64 11 initial_state) = AtAcousticLoop ∧
  location (run tenth_estimates_binary64 12 initial_state) = AtInnerLoop ∧
  acoustic_calls (run tenth_estimates_binary64 12 initial_state) = 9.
Proof. vm_compute. done. Qed.

(** The main loop can be left on a NaN.  With an outer step of [+inf], a
    first acoustic step of [-inf] and a second of [+inf], the clocks become
    NaN; every test then fails, and control leaves the main loop with a
    physical time that is not at or past the end time. *)
Example binary64_exit_with_nan :
  let s := run infinite_estimates_binary64 7 initial_state in
  location s = AfterMainLoop ∧
  real_leb (physical_time s) (physical_time s) = false ∧
  real_ltb (physical_time s) end_time = false ∧
  real_leb end_time (physical_time s) = false.
Proof. vm_compute. done. Qed.

(** ** The further theorems at concrete inputs *)

Local Abbreviation example_real_index :=
  (@real_index Q (Q * Q) ((Q * Q) * (Q * Q))).

Lemma map_injective_from_NoDup (m : gmap string nat) :
  NoDup ((map_to_list m).*2) → map_injective m.
Proof.
  intros Hnd name1 name2 i H1 H2.
  apply elem_of_map_to_list in H1, H2.
  apply list_elem_of_lookup in H1 as [k1 H1], H2 as [k2 H2].
  assert (k1 = k2) as ->.
  { eapply NoDup_lookup; [exact Hnd|..]; rewrite list_lookup_fmap.
    - by rewrite H1.
    - by rewrite H2. }
  congruence.
Qed.

Lemma swap_same_index_witness :
  store_ok 3 example_store ∧ 1 < 3 ∧
  apply_operation swap_particle_data_value (1, 1) example_store
    = Some example_store.
Proof.
  assert (store_ok 3 example_store) as Hok
    by (apply (bool_decide_unpack _); vm_compute; reflexivity).
  split; [exact Hok|]. split; [lia|].
  apply (swap_same_index 3 example_store 1 Hok); lia.
Defined.

Lemma swap_permutes_witness :
  ∃ st',
    apply_operation swap_particle_data_value (0, 2) example_store = Some st' ∧
    ∀ T (ti : ParticleDataTypeIndex T), type_index T ti →
    ∀ p, option_Forall2 (≡ₚ) (get_arrays ti (memory st') !! p)
                             (get_arrays ti (memory example_store) !! p).
Proof.
  destruct (apply_operation swap_particle_data_value (0, 2) example_store)
    as [st'|] eqn:E; [|by vm_compute in E].
  exists st'. split; [reflexivity|].
  exact (swap_permutes example_store st' 0 2 E).
Defined.

Lemma swap_disjoint_commute_witness :
  store_ok 4 four_particle_store ∧
  apply_operation swap_particle_data_value (0, 1) four_particle_store
    ≫= apply_operation swap_particle_data_value (2, 3)
  = apply_operation swap_particle_data_value (2, 3) four_particle_store
    ≫= apply_operation swap_particle_data_value (0, 1).
Proof.
  assert (store_ok 4 four_particle_store) as Hok
    by (apply (bool_decide_unpack _); vm_compute; reflexivity).
  split; [exact Hok|].
  apply (swap_disjoint_commute 4 four_particle_store 0 1 2 3 Hok); lia.
Defined.

Lemma swap_out_of_bounds_witness :
  store_ok 3 example_store ∧ (3 ≤ 0 ∨ 3 ≤ 3) ∧
  ¬ no_variables (particle_data example_store) ∧
  apply_operation swap_particle_data_value (0, 3) example_store = None.
Proof.
  assert (store_ok 3 example_store) as Hok
    by (apply (bool_decide_unpack _); vm_compute; reflexivity).
  assert (3 ≤ 0 ∨ 3 ≤ 3) as Hab by (right; lia).
  assert (¬ no_variables (particle_data example_store)) as Hne
    by (intros [H _]; discriminate H).
  split; [exact Hok|]. split; [exact Hab|]. split; [exact Hne|].
  exact (proj2 (swap_out_of_bounds 3 example_store 0 3 Hok Hab) Hne).
Defined.

Lemma swap_needs_allocated_witness :
  12 ∈ get_variables example_real_index (particle_data dangling_store) ∧
  get_arrays example_real_index (memory dangling_store) !! 12 = None ∧
  apply_operation swap_particle_data_value (0, 2) dangling_store = None.
Proof.
  assert (12 ∈ get_variables example_real_index (particle_data dangling_store)) as Hp
    by (apply (bool_decide_unpack _); vm_compute; reflexivity).
  assert (get_arrays example_real_index (memory dangling_store) !! 12 = None) as Hn
    by (vm_compute; reflexivity).
  split; [exact Hp|]. split; [exact Hn|].
  exact (swap_needs_allocated dangling_store 0 2 _ example_real_index 12
           type_index_real Hp Hn).
Defined.

Lemma loop_visits_in_name_order_witness :
  ∃ st' v' log,
    apply_operation loop_particle_data_map (example_map, recorded idle_operation)
      (example_store, (tt, [])) = Some (st', (v', log)) ∧
    StronglySorted visit_lt log.
Proof.
  destruct (apply_operation loop_particle_data_map
              (example_map, recorded idle_operation) (example_store, (tt, [])))
    as [[st' [v' log]]|] eqn:E; [|by vm_compute in E].
  exists st', v', log. split; [reflexivity|].
  exact (loop_visits_in_name_order example_map idle_operation
           example_store st' tt v' log E).
Defined.

Lemma looking_leaves_store_witness :
  only_looks idle_operation ∧
  ∀ st' v',
    apply_operation loop_particle_data_map (example_map, idle_operation)
      (example_store, tt) = Some (st', v') →
    st' = example_store.
Proof.
  assert (only_looks idle_operation) as Hvo
    by (repeat split; intros name variable v r [= <-]; reflexivity).
  split; [exact Hvo|]. intros st' v'.
  exact (proj1 (looking_leaves_store idle_operation Hvo)
           example_map example_store st' tt v').
Defined.

Lemma loops_need_valid_index_witness :
  length (get_variables example_real_index (particle_data example_store)) ≤ 7 ∧
  get_map example_real_index stray_map !! "Density" = Some 7 ∧
  apply_operation loop_particle_data_map (stray_map, idle_operation)
    (example_store, tt) = None.
Proof.
  assert (length (get_variables example_real_index (particle_data example_store)) ≤ 7)
    as Hlen by (simpl; lia).
  assert (get_map example_real_index stray_map !! "Density" = Some 7) as Hm
    by (vm_compute; reflexivity).
  split; [exact Hlen|]. split; [exact Hm|].
  exact (proj1 (loops_need_valid_index example_real_index idle_operation example_store
                  tt "Density" 7 type_index_real Hlen) stray_map Hm).
Defined.

Lemma list_loop_visits_listed_witness :
  lists_in_store example_list example_store ∧
  returns_normally idle_operation ∧
  listed_names example_list
    = [ (Scalar, "Pressure"); (Scalar, "Pressure"); (Vector, "Velocity");
        (Integer, "SortedID") ] ∧
  ∃ st' v',
    apply_operation loop_variable_name_list (example_list, idle_operation)
      (example_store, tt) = Some (st', v') ∧
    apply_operation loop_variable_name_list (example_list, recorded idle_operation)
      (example_store, (tt, [])) = Some (st', (v', [] ++ listed_names example_list)).
Proof.
  assert (lists_in_store example_list example_store) as Hin
    by (apply (bool_decide_unpack _); vm_compute; reflexivity).
  assert (returns_normally idle_operation) as Hvo
    by (repeat split; intros; simpl; eauto).
  split; [exact Hin|]. split; [exact Hvo|]. split; [reflexivity|].
  exact (list_loop_visits_listed example_list idle_operation example_store
           tt [] Hin Hvo).
Defined.

Lemma loop_applies_operation_witness :
  no_aliasing (particle_data example_store) ∧ maps_injective example_map ∧
  maps_in_store example_map example_store ∧
  ∃ st',
    apply_operation loop_particle_data_map (example_map, rewriting_operation)
      (example_store, tt) = Some (st', tt) ∧
    particle_data st' = particle_data example_store ∧
    ∀ T (ti : ParticleDataTypeIndex T), type_index T ti →
      (∀ name i p, get_map ti example_map !! name = Some i →
         get_variables ti (particle_data example_store) !! i = Some p →
         ∃ variable variable',
           get_arrays ti (memory example_store) !! p = Some variable ∧
           call ti rewriting_operation name variable tt = Some (variable', tt) ∧
           get_arrays ti (memory st') !! p = Some variable') ∧
      (∀ p, (∀ name i, get_map ti example_map !! name = Some i →
               get_variables ti (particle_data example_store) !! i ≠ Some p) →
         get_arrays ti (memory st') !! p
         = get_arrays ti (memory example_store) !! p).
Proof.
  assert (no_aliasing (particle_data example_store)) as Hna
    by (apply (bool_decide_unpack _); vm_compute; reflexivity).
  assert (maps_injective example_map) as Hinj.
  { repeat split; apply map_injective_from_NoDup;
      apply (bool_decide_unpack _); vm_compute; reflexivity. }
  assert (maps_in_store example_map example_store) as Hin
    by (apply (bool_decide_unpack _); vm_compute; reflexivity).
  assert (returns_normally rewriting_operation) as Hvo
    by (repeat split; intros; simpl; eauto).
  split; [exact Hna|]. split; [exact Hinj|]. split; [exact Hin|].
  exact (loop_applies_operation example_map rewriting_operation example_store
           Hna Hinj Hin Hvo).
Defined.

Lemma main_loop_exit_witness :
  location (run coarse_estimates_binary64 6 initial_state) = AfterMainLoop ∧
  real_ltb (physical_time (run coarse_estimates_binary64 6 initial_state))
           end_time = false ∧
  physical_time (run coarse_estimates_binary64 6 initial_state) = real_lit 25 ∧
  ∀ k, run coarse_estimates_binary64 (k + 6) initial_state
       = run coarse_estimates_binary64 6 initial_state.
Proof.
  assert (location (run coarse_estimates_binary64 6 initial_state) = AfterMainLoop)
    as Hl by (vm_compute; reflexivity).
  split; [exact Hl|].
  destruct (main_loop_exit coarse_estimates_binary64 6) as [_ H].
  destruct (H Hl) as (Hlt & _ & Habs).
  split; [exact Hlt|]. split; [vm_compute; reflexivity|exact Habs].
Defined.

Lemma acoustic_loop_iterations_witness :
  location (run tenth_estimates_binary64 2 initial_state) = AtAcousticLoop ∧
  (∀ i, i < 9 →
     real_ltb (advanced tenth_estimates_binary64 (real_lit 0.8) 0 (real_lit 0) i)
              (real_lit 0.8) = true) ∧
  real_ltb (advanced tenth_estimates_binary64 (real_lit 0.8) 0 (real_lit 0) 9)
           (real_lit 0.8) = false ∧
  location (run tenth_estimates_binary64 9 (run tenth_estimates_binary64 2 initial_state))
    = AtAcousticLoop ∧
  acoustic_calls
    (run tenth_estimates_binary64 9 (run tenth_estimates_binary64 2 initial_state))
    = 9 ∧
  location (step tenth_estimates_binary64
              (run tenth_estimates_binary64 9
                 (run tenth_estimates_binary64 2 initial_state)))
    = AtInnerLoop.
Proof.
  assert (location (run tenth_estimates_binary64 2 initial_state) = AtAcousticLoop)
    as Hl by reflexivity.
  assert (∀ i, i < 9 →
     real_ltb (advanced tenth_estimates_binary64 (real_lit 0.8) 0 (real_lit 0) i)
              (real_lit 0.8) = true) as Hg.
  { intros i Hi. do 9 (destruct i as [|i]; [vm_compute; reflexivity|]). lia. }
  assert (real_ltb (advanced tenth_estimates_binary64 (real_lit 0.8) 0 (real_lit 0) 9)
                   (real_lit 0.8) = false) as Hend by (vm_compute; reflexivity).
  split; [exact Hl|]. split; [exact Hg|]. split; [exact Hend|].
  destruct (acoustic_loop_iterations tenth_estimates_binary64
              (run tenth_estimates_binary64 2 initial_state) 9 Hl Hg)
    as (L9 & _ & C9 & _ & _ & _ & _ & Hexit).
  split; [exact L9|]. split; [exact C9|].
  exact (proj1 (Hexit Hend)).
Defined.

Lemma absorbed_steps_never_end_witness :
  (∀ body k, real_ltb (real_lit 0)
               (advection_time_step_size tiny_estimates_binary64 body k) = true) ∧
  (∀ body k, real_ltb (real_lit 0)
               (acoustic_time_step_size tiny_estimates_binary64 body k) = true) ∧
  location (run tiny_estimates_binary64 3 initial_state) = AtAcousticLoop ∧
  relaxation_time (run tiny_estimates_binary64 3 initial_state) = real_lit 0.05 ∧
  Dt (run tiny_estimates_binary64 3 initial_state) = real_lit 1 ∧
  ∀ n, location (run tiny_estimates_binary64 n
                   (run tiny_estimates_binary64 3 initial_state)) = AtAcousticLoop ∧
       relaxation_time (run tiny_estimates_binary64 n
                          (run tiny_estimates_binary64 3 initial_state))
         = real_lit 0.05.
Proof.
  assert (location (run tiny_estimates_binary64 3 initial_state) = AtAcousticLoop)
    as Hl by reflexivity.
  assert (real_ltb (relaxation_time (run tiny_estimates_binary64 3 initial_state))
                   (Dt (run tiny_estimates_binary64 3 initial_state)) = true)
    as Hg by (vm_compute; reflexivity).
  assert (∀ k, acoustic_calls (run tiny_estimates_binary64 3 initial_state) ≤ k →
            real_add (relaxation_time (run tiny_estimates_binary64 3 initial_state))
              (inner_step tiny_estimates_binary64
                 (Dt (run tiny_estimates_binary64 3 initial_state)) k)
            = relaxation_time (run tiny_estimates_binary64 3 initial_state))
    as Habs.
  { intros [|k] Hk; [exfalso; revert Hk; vm_compute; lia|vm_compute; reflexivity]. }
  split; [intros body k; vm_compute; reflexivity|].
  split; [intros body [|k]; vm_compute; reflexivity|].
  split; [exact Hl|]. split; [vm_compute; reflexivity|].
  split; [vm_compute; reflexivity|].
  intros n.
  destruct (absorbed_steps_never_end tiny_estimates_binary64
              (run tiny_estimates_binary64 3 initial_state) Hl Hg Habs n)
    as (Ln & Rn & _).
  split; [exact Ln|]. rewrite Rn. vm_compute. reflexivity.
Defined.

Lemma nonpositive_acoustic_steps_never_end_witness :
  (∀ body k, (0 < advection_time_step_size negative_estimates body k)%Q) ∧
  (∀ k, (SMIN (acoustic_time_step_size negative_estimates Water k)
              (acoustic_time_step_size negative_estimates Air k) <= 0)%Q) ∧
  location (run negative_estimates 1000 initial_state) ≠ AfterMainLoop.
Proof.
  assert (∀ body k,
            (0 < advection_time_step_size negative_estimates body k)%Q) as Hadv
    by (intros [] k; reflexivity).
  assert (∀ k, (SMIN (acoustic_time_step_size negative_estimates Water k)
                     (acoustic_time_step_size negative_estimates Air k) <= 0)%Q)
    as Hac by (intros k; vm_compute; discriminate).
  split; [exact Hadv|]. split; [exact Hac|].
  exact (proj1 (nonpositive_acoustic_steps_never_end negative_estimates
                  Hadv Hac 1000)).
Defined.
